(** * A breadth-first simulator for nondeterministic Turing machines

    Shallow embedding of the class [NondeterministicTuringMachine] of
    [src/program.py] and [src/TM_trace_nefario.py], and the properties of its
    specification.

    Python values are modelled as follows.
    - [str] is [string], a sequence of characters of type [ascii]; a Python
      character is a string of length one.  The lists [list(left_tape)] and
      [list(right_tape)] are lists of strings, since the symbol a transition
      writes is a field of a row and may have any length.
    - [int] is [Z].
    - a configuration, the three-element list [[left_tape, state, right_tape]],
      is the record [Config].
    - a level is a [list Config], the tree a [list (list Config)]; [append] adds
      at the end.
    - [self.transitions], a [defaultdict(list)] keyed by pairs of strings, is a
      [gmap (string * string) (list Entry)].
    - the outcome printed by [run] is the inductive [Outcome]. *)

From Stdlib Require Import ZArith Lia Ascii String.
From stdpp Require Import base option list strings gmap.

Local Open Scope string_scope.
Local Open Scope list_scope.
Local Open Scope Z_scope.

(** ** Strings as sequences of characters *)

Module Str.

(** [list(s)]: the characters of [s], each a string of length one. *)
Fixpoint chars (s : string) : list string :=
  match s with
  | EmptyString => []
  | String a s' => String a EmptyString :: chars s'
  end.

(** ["".join(l)]. *)
Fixpoint join (l : list string) : string :=
  match l with
  | [] => EmptyString
  | x :: l' => x +:+ join l'
  end.

(** A symbol as the one-character string that holds it. *)
Definition sym (a : ascii) : string := String a EmptyString.

End Str.

(** ** Configurations and transition entries *)

Record Config := mkConfig {
  left_tape : string;
  state : string;
  right_tape : string
}.

(** A table entry [(new_state, write_symbol, direction)]. *)
Definition Entry : Type := string * string * string.

(** [right_tape[0] if right_tape else "_"] *)
Definition head_symbol (right_tape : string) : string :=
  match right_tape with
  | String a _ => String a EmptyString
  | EmptyString => "_"
  end.

(** The "Write symbol" block: [new_right_tape[0] = write_symbol] on a non-empty
    list, [append] on an empty one. *)
Definition write_head (new_right_tape : list string) (write_symbol : string)
  : list string :=
  match new_right_tape with
  | _ :: rest => write_symbol :: rest
  | [] => [write_symbol]
  end.

(** The "Move head" block on the two lists.  A direction other than ["L"] and
    ["R"] falls through both tests and moves nothing. *)
Definition move_head (direction : string) (new_left_tape new_right_tape : list string)
  : list string * list string :=
  if bool_decide (direction = "L") then
    match last new_left_tape with
    | Some x => (removelast new_left_tape, x :: new_right_tape)
    | None => (new_left_tape, "_" :: new_right_tape)
    end
  else if bool_decide (direction = "R") then
    let '(new_left_tape, new_right_tape) :=
      match new_right_tape with
      | x :: rest => (new_left_tape ++ [x], rest)
      | [] => (new_left_tape, new_right_tape)
      end in
    match new_right_tape with
    | [] => (new_left_tape, ["_"])
    | _ :: _ => (new_left_tape, new_right_tape)
    end
  else (new_left_tape, new_right_tape).

(** The body of the loop over the table entries: the successor of the
    configuration [[left_tape, state, right_tape]] by one entry. *)
Definition apply_transition (c : Config) (e : Entry) : Config :=
  let '(new_state, write_symbol, direction) := e in
  let new_left_tape := Str.chars (left_tape c) in
  let new_right_tape := Str.chars (right_tape c) in
  let new_right_tape := write_head new_right_tape write_symbol in
  let '(new_left_tape, new_right_tape) :=
    move_head direction new_left_tape new_right_tape in
  mkConfig (Str.join new_left_tape) new_state (Str.join new_right_tape).

(** ** The tape a configuration denotes

    The tape is infinite in both directions and blank where nothing is
    materialised.  Cells are numbered from the head: cell [0] is under the
    head, cell [k > 0] is [k] cells to its right, cell [-k] is [k] cells to
    its left. *)

Definition blank : ascii := "_"%char.

Definition cell (c : Config) (k : Z) : ascii :=
  if 0 <=? k
  then nth (Z.to_nat k) (list_ascii_of_string (right_tape c)) blank
  else nth (Z.to_nat (- k - 1)) (rev (list_ascii_of_string (left_tape c))) blank.

(** The right tape without the cell under the head. *)
Definition behind_head (right_tape : string) : string :=
  match right_tape with
  | EmptyString => EmptyString
  | String _ rest => rest
  end.


(** ** The transition table

    [self.transitions] is a [defaultdict(list)].  Reading [d[key]] binds a
    missing key to a fresh empty list first; [d.get(key, default)] never
    binds anything. *)

Abbreviation Table := (gmap (string * string) (list Entry)).

Module DefaultDict.

(** [d.get(key, default)] *)
Definition get (d : Table) (key : string * string) (default : list Entry)
  : list Entry :=
  match d !! key with
  | Some v => v
  | None => default
  end.

(** [d[key]]: the value, and the dictionary after the read. *)
Definition getitem (d : Table) (key : string * string) : Table * list Entry :=
  match d !! key with
  | Some v => (d, v)
  | None => (<[key := []]> d, [])
  end.

(** [d[key].append(e)] *)
Definition append_at (d : Table) (key : string * string) (e : Entry) : Table :=
  let '(d, v) := getitem d key in
  <[key := v ++ [e]]> d.

End DefaultDict.

(** ** The machine object *)

Record Machine := mkMachine {
  name : string;
  states : gset string;
  sigma : gset string;
  gamma : gset string;
  start_state : string;
  accept_state : string;
  reject_state : string;
  max_depth : Z;
  max_transitions : Z;
  transitions : Table
}.

(** One pass of the loop over [rows[7:]].  Unpacking a row that does not have
    exactly five fields raises, which is [None] here. *)
Definition load_row (tbl : Table) (transition : list string) : option Table :=
  match transition with
  | [current_state; read_symbol; new_state; write_symbol; direction] =>
      Some (DefaultDict.append_at tbl (current_state, read_symbol)
              (new_state, write_symbol, direction))
  | _ => None
  end.

Fixpoint load_rows (tbl : Table) (rows : list (list string)) : option Table :=
  match rows with
  | [] => Some tbl
  | transition :: rows' =>
      match load_row tbl transition with
      | Some tbl' => load_rows tbl' rows'
      | None => None
      end
  end.

(** [__init__] followed by [load_machine] on the rows the csv reader returns.
    An index out of range raises, which is [None] here.  The limits keep the
    values [__init__] gives them, and the table starts empty. *)
Definition load_machine (rows : list (list string)) : option Machine :=
  name ← rows !! 0%nat ≫= (.!! 0%nat);
  states ← rows !! 1%nat;
  sigma ← rows !! 2%nat;
  gamma ← rows !! 3%nat;
  start_state ← rows !! 4%nat ≫= (.!! 0%nat);
  accept_state ← rows !! 5%nat ≫= (.!! 0%nat);
  reject_state ← rows !! 6%nat ≫= (.!! 0%nat);
  tbl ← load_rows ∅ (drop 7 rows);
  Some (mkMachine name (list_to_set states) (list_to_set sigma) (list_to_set gamma)
          start_state accept_state reject_state 100 1000 tbl).

(** The first two statements of [run]. *)
Definition set_limits (self : Machine) (max_depth max_transitions : Z) : Machine :=
  mkMachine (name self) (states self) (sigma self) (gamma self)
    (start_state self) (accept_state self) (reject_state self)
    max_depth max_transitions (transitions self).

(** The entries [self.transitions.get((state, head_symbol), [])] of a
    configuration. *)
Definition possible_transitions (self : Machine) (c : Config) : list Entry :=
  DefaultDict.get (transitions self) (state c, head_symbol (right_tape c)) [].

(** ** Outcomes *)

Inductive Outcome :=
  | Accepted (depth : Z)
  | StoppedTransitions (limit : Z)
  | StoppedDepth (limit : Z)
  | Rejected (depth : Z)
  | NoValidPaths.

(** What [run] leaves behind: the object, the message it printed, and the last
    values of its locals [tree] and [transitions]. *)
Record Result := mkResult {
  machine : Machine;
  outcome : Outcome;
  tree : list (list Config);
  counter : Z
}.

(** [print_accept_path]: the pairs of a level and a configuration it prints
    after its first line, for the levels in [range(depth + 1)].  [run] calls
    it with [len(tree) - 1], so every [tree[level]] exists.  The version of
    [TM_trace_nefario.py] ends with one more line, their number less one. *)
Definition print_accept_path (tree : list (list Config)) (depth : Z)
  : list (nat * Config) :=
  flat_map (λ level, map (pair level) (default [] (tree !! level)))
    (seq 0 (Z.to_nat (depth + 1))).

(** The truth value of a list: non-empty. *)
Definition truthy {A} (l : list A) : bool :=
  match l with
  | [] => false
  | _ :: _ => true
  end.

(** ** The engine

    The [run] of the two files differs in one place only, apart from
    comments and the text of the last message: what is appended to
    [next_level] for one expanded configuration.  The loop around it is
    written once, over that part. *)

Section Engine.

Variable successors : Machine → Config → list Config.

(** How the [for] loop over [current_level] ends. *)
Inductive Scan :=
  | ScanAccept (transitions : Z)
  | ScanBudget (transitions : Z)
  | ScanDone (transitions : Z) (next_level : list Config).

Fixpoint scan_level (self : Machine) (current_level : list Config)
    (transitions : Z) (next_level : list Config) : Scan :=
  match current_level with
  | [] => ScanDone transitions next_level
  | c :: rest =>
      if bool_decide (state c = accept_state self) then ScanAccept transitions
      else if bool_decide (state c = reject_state self)
      then scan_level self rest transitions next_level
      else
        let transitions := transitions + 1 in
        if transitions >? max_transitions self then ScanBudget transitions
        else scan_level self rest transitions (next_level ++ successors self c)
  end.

(** [any(config[1] != self.reject_state for config in next_level)] *)
Definition any_not_rejected (self : Machine) (next_level : list Config) : bool :=
  existsb (fun config => negb (bool_decide (state config = reject_state self)))
    next_level.

Inductive Step :=
  | Halt (r : Result)
  | Continue (tree : list (list Config)) (transitions : Z).

(** One pass of the [while] loop.  [tree[-1]] is read on a non-empty tree
    only: the loop test comes first. *)
Definition iteration (self : Machine) (tree : list (list Config)) (transitions : Z)
  : Step :=
  let current_level := default [] (last tree) in
  match scan_level self current_level transitions [] with
  | ScanAccept transitions =>
      Halt (mkResult self (Accepted (Z.of_nat (length tree) - 1)) tree transitions)
  | ScanBudget transitions =>
      Halt (mkResult self (StoppedTransitions (max_transitions self)) tree transitions)
  | ScanDone transitions next_level =>
      let tree := if truthy next_level then tree ++ [next_level] else tree in
      if Z.of_nat (length tree) >? max_depth self
      then Halt (mkResult self (StoppedDepth (max_depth self)) tree transitions)
      else if negb (any_not_rejected self next_level)
      then Halt (mkResult self (Rejected (Z.of_nat (length tree) - 1)) tree transitions)
      else Continue tree transitions
  end.

(** [tree and transitions < self.max_transitions] *)
Definition guard (self : Machine) (tree : list (list Config)) (transitions : Z)
  : bool :=
  truthy tree && (transitions <? max_transitions self).

(** The [while] loop, with a bound on the number of passes; [None] when the
    bound is used up. *)
Fixpoint loop (fuel : nat) (self : Machine) (tree : list (list Config))
    (transitions : Z) : option Result :=
  if guard self tree transitions then
    match fuel with
    | O => None
    | S fuel' =>
        match iteration self tree transitions with
        | Halt r => Some r
        | Continue tree' transitions' => loop fuel' self tree' transitions'
        end
    end
  else Some (mkResult self NoValidPaths tree transitions).

Definition initial_config (self : Machine) (input_string : string) : Config :=
  mkConfig "" (start_state self) input_string.

(** Passes that suffice from a tree: every pass that goes on adds a level and
    leaves at most [max_depth] of them. *)
Definition passes (self : Machine) (tree : list (list Config)) : nat :=
  S (Z.to_nat (max_depth self - Z.of_nat (length tree))).

Definition run (self : Machine) (input_string : string)
    (max_depth max_transitions : Z) : option Result :=
  let self := set_limits self max_depth max_transitions in
  let tree := [[initial_config self input_string]] in
  loop (passes self tree) self tree 0.

(** The configurations a scan expands: those that neither accept nor are
    rejected. *)
Definition live (self : Machine) (c : Config) : bool :=
  negb (bool_decide (state c = accept_state self)) &&
  negb (bool_decide (state c = reject_state self)).

(** What a complete scan of a level appends to [next_level]. *)
Definition expand_level (self : Machine) (level : list Config) : list Config :=
  flat_map (successors self) (List.filter (live self) level).

(** A level and the level the loop appends after it. *)
Definition level_step (self : Machine) (level level' : list Config) : Prop :=
  Forall (λ c, state c ≠ accept_state self) level ∧
  level' = expand_level self level ∧
  level' ≠ [].

(** A tree as the loop builds it from the initial configuration. *)
Definition tree_ok (self : Machine) (input_string : string)
    (tree : list (list Config)) : Prop :=
  tree !! 0%nat = Some [initial_config self input_string] ∧
  ∀ (i : nat) level level',
    tree !! i = Some level → tree !! S i = Some level' →
    level_step self level level'.

(** How the loop is left from a state: by its test, or by a [return] in the
    pass that follows. *)
Definition exits (self : Machine) (tree : list (list Config)) (transitions : Z)
    (r : Result) : Prop :=
  (guard self tree transitions = false ∧
   r = mkResult self NoValidPaths tree transitions) ∨
  (guard self tree transitions = true ∧ iteration self tree transitions = Halt r).

(** The states in which the test of the [while] loop is evaluated during
    [run]; [self] is the object after the limits are stored. *)
Inductive reachable (self : Machine) (input_string : string)
  : list (list Config) → Z → Prop :=
  | reachable_start :
      reachable self input_string [[initial_config self input_string]] 0
  | reachable_next tree transitions tree' transitions' :
      reachable self input_string tree transitions →
      guard self tree transitions = true →
      iteration self tree transitions = Continue tree' transitions' →
      reachable self input_string tree' transitions'.

End Engine.

(** ** The two files *)

Module ProgramPy.

(** Lines 66 to 88 of [program.py]: one successor per entry, none when the key
    is absent. *)
Definition successors (self : Machine) (c : Config) : list Config :=
  map (apply_transition c) (possible_transitions self c).

Definition run := run successors.

End ProgramPy.

Module TraceNefario.

(** Lines 69 to 99 of [TM_trace_nefario.py]: without an entry, the one
    configuration [[left_tape, self.reject_state, right_tape]]. *)
Definition successors (self : Machine) (c : Config) : list Config :=
  let possible := possible_transitions self c in
  if truthy possible
  then map (apply_transition c) possible
  else [mkConfig (left_tape c) (reject_state self) (right_tape c)].

Definition run := run successors.

End TraceNefario.


(** Either file, to state what holds of both. *)
Inductive SourceFile := program_py | TM_trace_nefario_py.

Definition successors_of (f : SourceFile) : Machine → Config → list Config :=
  match f with
  | program_py => ProgramPy.successors
  | TM_trace_nefario_py => TraceNefario.successors
  end.

Definition run_of (f : SourceFile) := run (successors_of f).

(** ** Notions the properties are stated with *)

(** The entries a key has in the transition rows, in row order. *)
Fixpoint entries_of (rows : list (list string)) (key : string * string)
  : list Entry :=
  match rows with
  | [] => []
  | [current_state; read_symbol; new_state; write_symbol; direction] :: rows' =>
      if bool_decide ((current_state, read_symbol) = key)
      then (new_state, write_symbol, direction) :: entries_of rows' key
      else entries_of rows' key
  | _ :: rows' => entries_of rows' key
  end.

(** The number of successors the specification gives a configuration: one per
    table entry, and one when there is none. *)
Definition width (self : Machine) (c : Config) : nat :=
  match possible_transitions self c with
  | [] => 1
  | _ :: _ => length (possible_transitions self c)
  end.

(** The width of the level after [level]: the sum over its configurations
    that neither accept nor are rejected. *)
Definition level_width (self : Machine) (level : list Config) : nat :=
  list_sum (map (width self) (List.filter (live self) level)).

(** Every configuration of the level that neither accepts nor is rejected
    has an entry for its state and head symbol; and so for every level of a
    tree. *)
Definition level_defined (self : Machine) (level : list Config) : bool :=
  forallb (λ c, negb (live self c) || truthy (possible_transitions self c)) level.

Definition moves_defined (self : Machine) (tree : list (list Config)) : bool :=
  forallb (level_defined self) tree.

(** The configurations a run expanded: the counter, less the increment that
    ends the run on the budget, which comes before the expansion. *)
Definition expanded (r : Result) : Z :=
  match outcome r with
  | StoppedTransitions _ => counter r - 1
  | _ => counter r
  end.

(** ** Example machines *)

Module Examples.

Definition header : list (list string) :=
  [["m"]; ["q0"; "q1"; "q2"; "qa"; "qr"]; ["a"]; ["a"; "_"]; ["q0"]; ["qa"]; ["qr"]].

Definition machine_of (tbl : Table) : Machine :=
  mkMachine "m" {["q0"; "q1"; "q2"; "qa"; "qr"]} {["a"]} {["a"; "_"]}
    "q0" "qa" "qr" 100 1000 tbl.

(** No transition at all. *)
Definition rows_none : list (list string) := header.
Definition M_none : Machine := machine_of ∅.

(** One transition, from the start state into the accept state. *)
Definition rows_accept : list (list string) :=
  header ++ [["q0"; "a"; "qa"; "b"; "R"]].
Definition M_accept : Machine :=
  machine_of {[ ("q0", "a") := [("qa", "b", "R")] ]}.

(** One transition, from the start state into the reject state. *)
Definition rows_reject : list (list string) :=
  header ++ [["q0"; "a"; "qr"; "a"; "R"]].
Definition M_reject : Machine :=
  machine_of {[ ("q0", "a") := [("qr", "a", "R")] ]}.

(** Two branches from the start state: [q1] has no move, [q2] runs on. *)
Definition rows_branch : list (list string) :=
  header ++ [["q0"; "a"; "q1"; "a"; "R"];
             ["q2"; "_"; "q2"; "_"; "R"];
             ["q0"; "a"; "q2"; "a"; "R"]].
Definition M_branch : Machine :=
  machine_of {[ ("q0", "a") := [("q1", "a", "R"); ("q2", "a", "R")];
                ("q2", "_") := [("q2", "_", "R")] ]}.

(** The start state is the accept state. *)
Definition M_start_accepts : Machine :=
  mkMachine "m" {["q0"; "qr"]} {["a"]} {["a"; "_"]} "q0" "q0" "qr" 100 1000 ∅.

(** The start state is the reject state. *)
Definition M_start_rejected : Machine :=
  mkMachine "m" {["q0"; "qa"]} {["a"]} {["a"; "_"]} "q0" "qa" "q0" 100 1000 ∅.

End Examples.

(** ** Further notions *)

(** The first field of row [i], as [rows[i][0]] reads it. *)
Definition first_field (rows : list (list string)) (i : nat) : option string :=
  rows !! i ≫= (.!! 0%nat).

(** Rows the loader accepts: the rows it indexes have a first field, and
    every row after the seventh has five fields. *)
Definition well_formed_rows (rows : list (list string)) : Prop :=
  (∀ i : nat, In i [0; 4; 5; 6]%nat → is_Some (first_field rows i)) ∧
  Forall (λ row, length row = 5%nat) (drop 7 rows).

(** A computation of [n] steps: each step goes from a configuration that
    neither accepts nor is rejected to one of the configurations the file
    appends for it. *)
Inductive computes (successors : Machine → Config → list Config) (self : Machine)
  : nat → Config → Config → Prop :=
  | computes_0 c : computes successors self 0 c c
  | computes_S n c c' c'' :
      computes successors self n c c' →
      live self c' = true →
      In c'' (successors self c') →
      computes successors self (S n) c c''.

(** The configurations of a tree that neither accept nor are rejected. *)
Definition live_count (self : Machine) (tree : list (list Config)) : nat :=
  list_sum (map (λ level, length (List.filter (live self) level)) tree).

(** The lines [print_accept_path] prints for a whole tree: every
    configuration, level after level, with the index of its level. *)
Definition tagged_levels (tree : list (list Config)) : list (nat * Config) :=
  concat (imap (λ level configs, map (pair level) configs) tree).

(** A level of [program.py] beside the level of [TM_trace_nefario.py] at the
    same place: the same configurations in the same order, but for
    configurations in the reject state that only the second has. *)
Inductive thinner (self : Machine) : list Config → list Config → Prop :=
  | thinner_nil : thinner self [] []
  | thinner_keep c P T :
      thinner self P T → thinner self (c :: P) (c :: T)
  | thinner_skip c P T :
      state c = reject_state self → thinner self P T → thinner self P (c :: T).

(** The outcome of [TM_trace_nefario.py] beside the outcome of [program.py]
    on the same input: the same, but that a rejection may come one level
    later, or be cut by the depth limit. *)
Definition outcome_beside (md : Z) (program trace : Outcome) : Prop :=
  match program with
  | Rejected d =>
      trace = Rejected d ∨ trace = Rejected (d + 1) ∨ trace = StoppedDepth md
  | _ => trace = program
  end.
(** * Properties *)

(** ** Tape mechanics on examples *)

Example apply_left_ex :
  apply_transition (mkConfig "ab" "q" "cd") ("p", "x", "L") = mkConfig "a" "p" "bxd".
Proof. reflexivity. Qed.

Example apply_left_edge_ex :
  apply_transition (mkConfig "" "q" "") ("p", "x", "L") = mkConfig "" "p" "_x".
Proof. reflexivity. Qed.

Example apply_right_ex :
  apply_transition (mkConfig "ab" "q" "cd") ("p", "x", "R") = mkConfig "abx" "p" "d".
Proof. reflexivity. Qed.

Example apply_right_edge_ex :
  apply_transition (mkConfig "ab" "q" "c") ("p", "x", "R") = mkConfig "abx" "p" "_".
Proof. reflexivity. Qed.

Example apply_stay_ex :
  apply_transition (mkConfig "ab" "q" "cd") ("p", "x", "S") = mkConfig "ab" "p" "xd".
Proof. reflexivity. Qed.

(** ** Strings and their characters *)

Lemma append_nil (x : string) : EmptyString +:+ x = x.
Proof. reflexivity. Qed.

Lemma append_cons (a : ascii) (x y : string) : String a x +:+ y = String a (x +:+ y).
Proof. reflexivity. Qed.

Lemma append_nil_r (x : string) : x +:+ EmptyString = x.
Proof.
  induction x as [|a x IH]; [reflexivity | by rewrite append_cons, IH].
Qed.

Lemma chars_map_sym (s : string) :
  Str.chars s = map Str.sym (list_ascii_of_string s).
Proof. induction s as [|a s IH]; simpl; [reflexivity | by rewrite IH]. Qed.

Lemma join_map_sym (l : list ascii) :
  Str.join (map Str.sym l) = string_of_list_ascii l.
Proof.
  induction l as [|a l IH]; simpl; [reflexivity|].
  by rewrite IH.
Qed.

Lemma join_chars (s : string) : Str.join (Str.chars s) = s.
Proof.
  rewrite chars_map_sym, join_map_sym. apply string_of_list_ascii_of_string.
Qed.

Lemma append_assoc (x y z : string) : (x +:+ y) +:+ z = x +:+ (y +:+ z).
Proof.
  induction x as [|a x IH]; [reflexivity | by rewrite !append_cons, IH].
Qed.

Lemma join_snoc (l : list string) (x : string) :
  Str.join (l ++ [x]) = Str.join l +:+ x.
Proof.
  induction l as [|y l IH]; simpl.
  - by rewrite append_nil_r.
  - by rewrite IH, append_assoc.
Qed.

Lemma list_of_app (s t : string) :
  list_ascii_of_string (s +:+ t) = list_ascii_of_string s ++ list_ascii_of_string t.
Proof.
  induction s as [|a s IH]; [reflexivity|].
  rewrite append_cons. simpl. by rewrite IH.
Qed.

(** ** One step to the left, one step to the right *)

Lemma move_left_chars (la : list ascii) (nr : list string) :
  move_head "L" (map Str.sym la) nr =
  (map Str.sym (removelast la), Str.sym (List.last la blank) :: nr).
Proof.
  unfold move_head. simpl bool_decide. cbv iota.
  destruct la as [|a la] using rev_ind; [reflexivity|].
  rewrite map_app. simpl map. rewrite last_snoc.
  rewrite !removelast_last, last_last. reflexivity.
Qed.

Lemma apply_left (c : Config) (s' : string) (a : ascii) :
  apply_transition c (s', Str.sym a, "L") =
  mkConfig (string_of_list_ascii (removelast (list_ascii_of_string (left_tape c))))
    s'
    (String (List.last (list_ascii_of_string (left_tape c)) blank)
       (String a (behind_head (right_tape c)))).
Proof.
  unfold apply_transition.
  rewrite (chars_map_sym (left_tape c)), move_left_chars, join_map_sym.
  f_equal. destruct (right_tape c) as [|h r]; simpl; [reflexivity|].
  by rewrite join_chars.
Qed.

Lemma apply_right (c : Config) (s' : string) (a : ascii) :
  apply_transition c (s', Str.sym a, "R") =
  mkConfig (left_tape c +:+ Str.sym a) s'
    (match behind_head (right_tape c) with
     | EmptyString => "_"
     | String _ _ => behind_head (right_tape c)
     end).
Proof.
  unfold apply_transition.
  assert (Hw : write_head (Str.chars (right_tape c)) (Str.sym a) =
               Str.sym a :: Str.chars (behind_head (right_tape c))).
  { destruct (right_tape c); reflexivity. }
  rewrite Hw. unfold move_head. simpl bool_decide. cbv iota.
  destruct (behind_head (right_tape c)) as [|h r] eqn:Hb; simpl.
  - by rewrite join_snoc, join_chars.
  - by rewrite join_snoc, !join_chars.
Qed.

Lemma list_of_string_of (l : list ascii) :
  list_ascii_of_string (string_of_list_ascii l) = l.
Proof. apply list_ascii_of_string_of_list_ascii. Qed.

(** Putting the last cell of the left tape back: the same cells, with one
    blank materialised when there was none. *)
Lemma nth_rev_put_back (la : list ascii) (n : nat) :
  nth n (rev (removelast la ++ [List.last la blank])) blank = nth n (rev la) blank.
Proof.
  destruct la as [|a la] using rev_ind.
  - simpl. by destruct n as [|[|n]].
  - by rewrite removelast_last, last_last.
Qed.

(** Behind the head, a tape that ends and the blank put there read alike. *)
Lemma nth_behind_head (r : string) (n : nat) :
  nth n
    (list_ascii_of_string
       (match behind_head r with
        | EmptyString => "_"
        | String _ _ => behind_head r
        end)) blank =
  nth (S n) (list_ascii_of_string r) blank.
Proof.
  destruct r as [|h [|h' r]]; simpl; try reflexivity.
  - by destruct n as [|[|n]].
  - by destruct n as [|[|n]].
Qed.

Lemma left_then_right (c : Config) (a : ascii) (s1 s2 : string) (k : Z) :
  let c1 := apply_transition c (s1, Str.sym a, "L") in
  let c2 := apply_transition c1 (s2, head_symbol (right_tape c1), "R") in
  cell c2 k = if k =? 0 then a else cell c k.
Proof.
  intros c1 c2. subst c2 c1. rewrite apply_left. simpl right_tape.
  change (head_symbol (String ?x ?r)) with (Str.sym x).
  rewrite apply_right. simpl left_tape. simpl right_tape. simpl behind_head.
  unfold cell. simpl left_tape. simpl right_tape.
  destruct (Z.leb_spec 0 k) as [Hk|Hk].
  - destruct (Z.eqb_spec k 0) as [->|Hk0]; [reflexivity|].
    replace (Z.to_nat k) with (S (Z.to_nat (k - 1))) by lia.
    simpl. destruct (right_tape c) as [|h r]; simpl; [|reflexivity].
    by destruct (Z.to_nat (k - 1)).
  - destruct (Z.eqb_spec k 0) as [->|_]; [lia|].
    rewrite list_of_app, list_of_string_of. simpl list_ascii_of_string.
    apply nth_rev_put_back.
Qed.

Lemma right_then_left (c : Config) (a : ascii) (s1 s2 : string) (k : Z) :
  let d1 := apply_transition c (s1, Str.sym a, "R") in
  let d2 := apply_transition d1 (s2, head_symbol (right_tape d1), "L") in
  cell d2 k = if k =? 0 then a else cell c k.
Proof.
  intros d1 d2. subst d2 d1. rewrite apply_right. simpl right_tape.
  set (R1 := match behind_head (right_tape c) with
             | EmptyString => "_"
             | String _ _ => behind_head (right_tape c)
             end).
  assert (HR1 : ∃ h, head_symbol R1 = Str.sym h ∧ String h (behind_head R1) = R1).
  { subst R1. destruct (behind_head (right_tape c)) as [|h r]; eexists; split; reflexivity. }
  destruct HR1 as (h & -> & HR1).
  rewrite apply_left. simpl left_tape. simpl right_tape. rewrite HR1.
  rewrite list_of_app. simpl list_ascii_of_string at 2. simpl list_ascii_of_string at 3.
  rewrite removelast_last, last_last, string_of_list_ascii_of_string.
  unfold cell. simpl left_tape. simpl right_tape.
  destruct (Z.leb_spec 0 k) as [Hk|Hk].
  - destruct (Z.eqb_spec k 0) as [->|Hk0]; [reflexivity|].
    replace (Z.to_nat k) with (S (Z.to_nat (k - 1))) by lia.
    simpl nth at 1. subst R1. apply nth_behind_head.
  - destruct (Z.eqb_spec k 0) as [->|_]; [lia | reflexivity].
Qed.

(** C8.  From any configuration, a step that writes [a] and moves left,
    followed by a step that writes back the symbol then under the head and
    moves right, leaves every cell of the tape as it was, seen from the head,
    except the cell under the head, which holds [a]; and so does a step to the
    right followed by a step to the left. *)
Theorem tape_round_trip (c : Config) (a : ascii) (s1 s2 : string) (k : Z) :
  let c1 := apply_transition c (s1, Str.sym a, "L") in
  let c2 := apply_transition c1 (s2, head_symbol (right_tape c1), "R") in
  let d1 := apply_transition c (s1, Str.sym a, "R") in
  let d2 := apply_transition d1 (s2, head_symbol (right_tape d1), "L") in
  cell c2 k = (if k =? 0 then a else cell c k) ∧
  cell d2 k = (if k =? 0 then a else cell c k).
Proof.
  split; [apply left_then_right | apply right_then_left].
Qed.

(** Away from the materialised ends the configuration itself is restored. *)
Lemma left_then_right_inner (l r : string) (x a : ascii) (s s1 s2 : string) :
  let c := mkConfig (l +:+ Str.sym x) s r in
  let c1 := apply_transition c (s1, Str.sym a, "L") in
  apply_transition c1 (s2, head_symbol (right_tape c1), "R") =
  mkConfig (l +:+ Str.sym x) s2 (String a (behind_head r)).
Proof.
  intros c c1. subst c1 c. rewrite apply_left. simpl right_tape.
  change (head_symbol (String ?y ?t)) with (Str.sym y).
  rewrite apply_right. simpl. f_equal.
  rewrite list_of_app. simpl list_ascii_of_string at 2. simpl list_ascii_of_string at 3.
  by rewrite removelast_last, last_last, string_of_list_ascii_of_string.
Qed.

Lemma right_then_left_inner (l r : string) (h x a : ascii) (s s1 s2 : string) :
  let c := mkConfig l s (String h (String x r)) in
  let d1 := apply_transition c (s1, Str.sym a, "R") in
  apply_transition d1 (s2, head_symbol (right_tape d1), "L") =
  mkConfig l s2 (String a (String x r)).
Proof.
  intros c d1. subst d1 c. rewrite apply_right. simpl right_tape. simpl behind_head.
  change (head_symbol (String x r)) with (Str.sym x).
  rewrite apply_left. simpl. f_equal.
  - rewrite list_of_app. simpl list_ascii_of_string at 2.
    by rewrite removelast_last, string_of_list_ascii_of_string.
  - rewrite list_of_app. simpl list_ascii_of_string at 2. by rewrite last_last.
Qed.

(** At the left end, the blank the first step materialised stays. *)
Example left_then_right_edge :
  let c := mkConfig "" "q" "ab" in
  let c1 := apply_transition c ("p", "x", "L") in
  apply_transition c1 ("q", head_symbol (right_tape c1), "R") = mkConfig "_" "q" "xb".
Proof. reflexivity. Qed.

Example right_then_left_edge :
  let c := mkConfig "" "q" "a" in
  let d1 := apply_transition c ("p", "x", "R") in
  apply_transition d1 ("q", head_symbol (right_tape d1), "L") = mkConfig "" "q" "x_".
Proof. reflexivity. Qed.

(** ** The loop *)

Section EngineFacts.

Variable successors : Machine → Config → list Config.


Lemma truthy_true {A} (l : list A) : truthy l = true ↔ l ≠ [].
Proof. destruct l; simpl; split; congruence. Qed.

Lemma truthy_false {A} (l : list A) : truthy l = false ↔ l = [].
Proof. destruct l; simpl; split; congruence. Qed.

(** A pass that goes on has scanned the whole last level, added a non-empty
    level with a configuration that is not rejected, and stays within the
    depth limit. *)
Lemma iteration_continue self tree t tree' t' :
  iteration successors self tree t = Continue tree' t' →
  ∃ next_level,
    scan_level successors self (default [] (last tree)) t [] = ScanDone t' next_level ∧
    next_level ≠ [] ∧
    tree' = tree ++ [next_level] ∧
    Z.of_nat (length tree') <= max_depth self ∧
    any_not_rejected self next_level = true.
Proof.
  unfold iteration.
  destruct (scan_level successors _ _ _ _) as [t1|t1|t1 next_level]; try discriminate.
  destruct (Z.gtb_spec (Z.of_nat (length (if truthy next_level
                                           then tree ++ [next_level] else tree)))
              (max_depth self)) as [Hd|Hd]; [discriminate|].
  destruct (any_not_rejected self next_level) eqn:Hany; [|discriminate].
  simpl. intros [= <- <-].
  assert (Hne : next_level ≠ []) by (intros ->; discriminate).
  apply truthy_true in Hne as Htr. rewrite Htr in Hd |- *.
  exists next_level. done.
Qed.

Lemma loop_fuel_mono self n m tree t r :
  (n <= m)%nat → loop successors n self tree t = Some r → loop successors m self tree t = Some r.
Proof.
  revert m tree t. induction n as [|n IH]; intros m tree t Hle; simpl.
  - destruct (guard self tree t) eqn:Hg; [discriminate|].
    destruct m; simpl; by rewrite Hg.
  - destruct m as [|m]; [lia|]. simpl.
    destruct (guard self tree t); [|done].
    destruct (iteration successors self tree t) as [r'|tree' t']; [done|].
    apply IH. lia.
Qed.

Lemma loop_terminates self tree t :
  ∃ r, loop successors (passes self tree) self tree t = Some r.
Proof.
  unfold passes.
  remember (Z.to_nat (max_depth self - Z.of_nat (length tree))) as n eqn:Hn.
  revert tree t Hn. induction n as [|n IH]; intros tree t Hn; simpl.
  - destruct (guard self tree t); [|eauto].
    destruct (iteration successors self tree t) as [r'|tree' t'] eqn:Hit; [eauto|].
    apply iteration_continue in Hit as (nl & _ & _ & -> & Hd & _).
    rewrite length_app in Hd. simpl in Hd. lia.
  - destruct (guard self tree t); [|eauto].
    destruct (iteration successors self tree t) as [r'|tree' t'] eqn:Hit; [eauto|].
    apply iteration_continue in Hit as (nl & _ & _ & -> & Hd & _).
    apply IH. rewrite length_app. simpl. lia.
Qed.

(** The loop rule: an invariant of the passes that go on, and a property of
    every way out. *)
Lemma loop_rule (self : Machine) (Inv : list (list Config) → Z → Prop)
    (Post : Result → Prop) :
  (∀ tree t, Inv tree t → guard self tree t = false →
     Post (mkResult self NoValidPaths tree t)) →
  (∀ tree t r, Inv tree t → guard self tree t = true →
     iteration successors self tree t = Halt r → Post r) →
  (∀ tree t tree' t', Inv tree t → guard self tree t = true →
     iteration successors self tree t = Continue tree' t' → Inv tree' t') →
  ∀ fuel tree t r, Inv tree t → loop successors fuel self tree t = Some r → Post r.
Proof.
  intros Hexit Hhalt Hnext fuel.
  induction fuel as [|fuel IH]; intros tree t r HI; simpl.
  - destruct (guard self tree t) eqn:Hg; [discriminate|].
    intros [= <-]. by apply Hexit.
  - destruct (guard self tree t) eqn:Hg.
    + destruct (iteration successors self tree t) as [r'|tree' t'] eqn:Hit.
      * intros [= <-]. by eapply Hhalt.
      * apply IH. by eapply Hnext.
    + intros [= <-]. by apply Hexit.
Qed.

(** From a reachable state the loop ends as the whole run does. *)
Lemma loop_from_reachable self input_string tree t r :
  reachable successors self input_string tree t →
  loop successors (passes self tree) self tree t = Some r →
  ∃ fuel, loop successors fuel self [[initial_config self input_string]] 0 = Some r.
Proof.
  intros Hr. revert r. induction Hr as [|tree t tree' t' Hr IH Hg Hit]; intros r Hl.
  - eauto.
  - destruct (loop_terminates self tree t) as [r0 Hr0].
    assert (Hl' : loop successors (S (passes self tree')) self tree t = Some r).
    { simpl. by rewrite Hg, Hit. }
    apply IH.
    destruct (Nat.le_ge_cases (passes self tree) (S (passes self tree'))) as [Hle|Hle].
    + pose proof (loop_fuel_mono _ _ _ _ _ _ Hle Hr0) as H1.
      rewrite Hl' in H1. by injection H1 as ->.
    + by apply (loop_fuel_mono _ _ _ _ _ _ Hle) in Hl'.
Qed.

(** ** One scan of a level *)

Lemma live_accepting self c :
  state c = accept_state self → live self c = false.
Proof. intros H. unfold live. by rewrite (bool_decide_eq_true_2 _ H). Qed.

Lemma live_rejected self c :
  state c = reject_state self → live self c = false.
Proof.
  intros H. unfold live. rewrite (bool_decide_eq_true_2 _ H).
  by destruct (bool_decide _).
Qed.

Lemma live_other self c :
  state c ≠ accept_state self → state c ≠ reject_state self → live self c = true.
Proof.
  intros Ha Hr. unfold live.
  by rewrite (bool_decide_eq_false_2 _ Ha), (bool_decide_eq_false_2 _ Hr).
Qed.

Lemma expand_level_cons self c rest :
  expand_level successors self (c :: rest) =
  (if live self c then successors self c else []) ++ expand_level successors self rest.
Proof. unfold expand_level. simpl. by destruct (live self c). Qed.

Lemma scan_level_spec self level t acc :
  t <= max_transitions self →
  match scan_level successors self level t acc with
  | ScanDone t' next_level =>
      Forall (λ c, state c ≠ accept_state self) level ∧
      next_level = acc ++ expand_level successors self level ∧
      t' = t + Z.of_nat (length (List.filter (live self) level)) ∧
      t' <= max_transitions self
  | ScanAccept t' =>
      t <= t' <= max_transitions self ∧
      Exists (λ c, state c = accept_state self) level
  | ScanBudget t' =>
      t' = max_transitions self + 1 ∧ List.filter (live self) level ≠ []
  end.
Proof.
  revert t acc. induction level as [|c rest IH]; intros t acc Ht.
  - simpl. unfold expand_level. simpl. rewrite app_nil_r.
    repeat split; [constructor | lia | lia].
  - rewrite expand_level_cons. simpl.
    destruct (bool_decide_reflect (state c = accept_state self)) as [Ha|Ha].
    { split; [lia | by constructor]. }
    destruct (bool_decide_reflect (state c = reject_state self)) as [Hr|Hr].
    { rewrite (live_rejected _ _ Hr). specialize (IH t acc Ht).
      destruct (scan_level successors _ _ _ _) as [t'|t'|t' nl].
      - destruct IH as [? ?]. split; [done | by constructor].
      - done.
      - destruct IH as (? & ? & ? & ?). repeat split; try done. by constructor. }
    rewrite (live_other _ _ Ha Hr). cbv zeta.
    destruct (Z.gtb_spec (t + 1) (max_transitions self)) as [Hb|Hb].
    { split; [lia | discriminate]. }
    specialize (IH (t + 1) (acc ++ successors self c) Hb).
    destruct (scan_level successors _ _ _ _) as [t'|t'|t' nl].
    + destruct IH as [? ?]. split; [lia | by constructor].
    + destruct IH as [? ?]. split; [done | discriminate].
    + destruct IH as (? & -> & -> & ?). repeat split; try done.
      * by constructor.
      * by rewrite app_assoc.
      * simpl length. lia.
Qed.

(** ** The ways out of a pass *)

Lemma iteration_halt self tree t r :
  iteration successors self tree t = Halt r →
  (∃ t', scan_level successors self (default [] (last tree)) t [] = ScanAccept t' ∧
         r = mkResult self (Accepted (Z.of_nat (length tree) - 1)) tree t') ∨
  (∃ t', scan_level successors self (default [] (last tree)) t [] = ScanBudget t' ∧
         r = mkResult self (StoppedTransitions (max_transitions self)) tree t') ∨
  (∃ t' next_level tree',
     scan_level successors self (default [] (last tree)) t [] = ScanDone t' next_level ∧
     tree' = (if truthy next_level then tree ++ [next_level] else tree) ∧
     ((max_depth self < Z.of_nat (length tree') ∧
       r = mkResult self (StoppedDepth (max_depth self)) tree' t') ∨
      (Z.of_nat (length tree') <= max_depth self ∧
       any_not_rejected self next_level = false ∧
       r = mkResult self (Rejected (Z.of_nat (length tree') - 1)) tree' t'))).
Proof.
  unfold iteration.
  destruct (scan_level successors _ _ _ _) as [t1|t1|t1 next_level].
  - intros [= <-]. left. eauto.
  - intros [= <-]. right. left. eauto.
  - right. right. exists t1, next_level. eexists. split; [reflexivity|].
    split; [reflexivity|]. revert H.
    destruct (Z.gtb_spec (Z.of_nat (length (if truthy next_level
                                              then tree ++ [next_level] else tree)))
                (max_depth self)) as [Hd|Hd].
    + intros [= <-]. left. split; [lia | done].
    + destruct (any_not_rejected self next_level); simpl; [discriminate|].
      intros [= <-]. right. done.
Qed.

Lemma guard_true self tree t :
  guard self tree t = true ↔ tree ≠ [] ∧ t < max_transitions self.
Proof.
  unfold guard. rewrite andb_true_iff, truthy_true, Z.ltb_lt. reflexivity.
Qed.

Lemma guard_false self tree t :
  guard self tree t = false ↔ tree = [] ∨ max_transitions self <= t.
Proof.
  unfold guard. rewrite andb_false_iff, truthy_false, Z.ltb_ge. reflexivity.
Qed.

(** ** The tree the loop builds *)

Lemma tree_ok_start self input_string :
  tree_ok successors self input_string [[initial_config self input_string]].
Proof.
  split; [reflexivity|]. intros i level level' _ H. by destruct i.
Qed.

Lemma tree_ok_snoc self input_string tree level next_level :
  tree_ok successors self input_string tree →
  last tree = Some level →
  level_step successors self level next_level →
  tree_ok successors self input_string (tree ++ [next_level]).
Proof.
  intros [H0 Hs] Hlast Hstep. split.
  - rewrite lookup_app_l; [done|]. by apply lookup_lt_Some in H0.
  - intros i lv lv' Hi HSi.
    destruct (decide (S i < length tree)%nat) as [Hlt|Hge].
    + rewrite lookup_app_l in Hi by lia. rewrite lookup_app_l in HSi by lia. eauto.
    + assert (Hlen : S i = length tree).
      { apply lookup_lt_Some in HSi. rewrite length_app in HSi. simpl in HSi. lia. }
      rewrite lookup_app_l in Hi by lia.
      rewrite lookup_app_r in HSi by lia.
      rewrite Hlen, Nat.sub_diag in HSi. simpl in HSi. injection HSi as <-.
      rewrite last_lookup, <- Hlen in Hlast. simpl in Hlast.
      rewrite Hlast in Hi. by injection Hi as <-.
Qed.

(** The step from the last level to a non-empty [next_level] a scan ends
    with. *)
Lemma scan_done_step self level t t' next_level :
  t <= max_transitions self →
  scan_level successors self level t [] = ScanDone t' next_level →
  next_level ≠ [] →
  level_step successors self level next_level.
Proof.
  intros Ht Hscan Hne. pose proof (scan_level_spec self level t [] Ht) as H.
  rewrite Hscan in H. destruct H as (Hacc & -> & _ & _). done.
Qed.

Lemma reachable_inv self input_string tree t :
  reachable successors self input_string tree t →
  tree_ok successors self input_string tree ∧
  0 <= t <= Z.max 0 (max_transitions self) ∧
  ((tree = [[initial_config self input_string]] ∧ t = 0) ∨
   (Z.of_nat (length tree) <= max_depth self ∧ (1 < length tree)%nat ∧
    ∃ level, last tree = Some level ∧ any_not_rejected self level = true)).
Proof.
  induction 1 as [|tree t tree' t' Hr (Hok & Ht & Hcase) Hg Hit].
  - split; [apply tree_ok_start|]. split; [lia | by left].
  - apply guard_true in Hg as [Hne Hlt].
    apply iteration_continue in Hit as (nl & Hscan & Hnl & -> & Hd & Hany).
    destruct (last tree) as [level|] eqn:Hlast; [|by apply last_None in Hlast].
    simpl in Hscan.
    pose proof (scan_level_spec self level t [] ltac:(lia)) as Hs.
    rewrite Hscan in Hs. destruct Hs as (_ & _ & Ht' & Hle).
    split; [|split].
    + eapply tree_ok_snoc; [done | done |]. eapply scan_done_step; [|done|done]. lia.
    + lia.
    + right. split; [done|]. split.
      * rewrite length_app. simpl. destruct tree; [done | simpl; lia].
      * exists nl. by rewrite last_snoc.
Qed.

(** ** The run and its reachable states *)

Lemma run_exits self input_string md mt r :
  run successors self input_string md mt = Some r →
  ∃ tree t,
    reachable successors (set_limits self md mt) input_string tree t ∧
    exits successors (set_limits self md mt) tree t r.
Proof.
  unfold run.
  set (self' := set_limits self md mt).
  apply (loop_rule self' (reachable successors self' input_string)
           (λ r, ∃ tree t, reachable successors self' input_string tree t ∧
                           exits successors self' tree t r)).
  - intros tree t Hr Hg. exists tree, t. split; [done | by left].
  - intros tree t r' Hr Hg Hit. exists tree, t. split; [done | by right].
  - intros tree t tree' t' Hr Hg Hit. by eapply reachable_next.
  - constructor.
Qed.

Lemma exits_loop self tree t r :
  exits successors self tree t r → loop successors (passes self tree) self tree t = Some r.
Proof.
  unfold passes. intros [[Hg ->]|[Hg Hit]]; simpl; by rewrite Hg, ?Hit.
Qed.

Lemma run_total self input_string md mt :
  ∃ r, run successors self input_string md mt = Some r.
Proof. unfold run. apply loop_terminates. Qed.

Lemma exits_run self input_string md mt tree t r :
  reachable successors (set_limits self md mt) input_string tree t →
  exits successors (set_limits self md mt) tree t r →
  run successors self input_string md mt = Some r.
Proof.
  intros Hr Hex. apply exits_loop in Hex.
  destruct (loop_from_reachable _ _ _ _ _ Hr Hex) as [fuel Hf].
  destruct (run_total self input_string md mt) as [r0 Hr0].
  rewrite Hr0. f_equal. unfold run in Hr0.
  set (self' := set_limits self md mt) in *.
  set (n := passes self' [[initial_config self' input_string]]) in *.
  destruct (Nat.le_ge_cases n fuel) as [Hle|Hle].
  - pose proof (loop_fuel_mono _ _ _ _ _ _ Hle Hr0) as H1. congruence.
  - pose proof (loop_fuel_mono _ _ _ _ _ _ Hle Hf) as H1. congruence.
Qed.

End EngineFacts.

(** ** The loader on the example machines *)

Example load_none : load_machine Examples.rows_none = Some Examples.M_none.
Proof. vm_compute. reflexivity. Qed.

Example load_accept : load_machine Examples.rows_accept = Some Examples.M_accept.
Proof. vm_compute. reflexivity. Qed.

Example load_reject : load_machine Examples.rows_reject = Some Examples.M_reject.
Proof. vm_compute. reflexivity. Qed.

Example load_branch : load_machine Examples.rows_branch = Some Examples.M_branch.
Proof. vm_compute. reflexivity. Qed.

Example load_short_row :
  load_machine (Examples.header ++ [["q0"; "a"; "qa"; "b"]]) = None.
Proof. vm_compute. reflexivity. Qed.

Example load_missing_rows : load_machine [["m"]; ["q0"]] = None.
Proof. vm_compute. reflexivity. Qed.

(** ** Limits *)

Section Limits.

Variable successors : Machine → Config → list Config.

Lemma run_zero_budget self input_string md :
  run successors self input_string md 0 =
  Some (mkResult (set_limits self md 0) NoValidPaths
          [[initial_config self input_string]] 0).
Proof. reflexivity. Qed.

Lemma run_start_accepts self input_string md mt :
  start_state self = accept_state self →
  0 < mt →
  run successors self input_string md mt =
  Some (mkResult (set_limits self md mt) (Accepted 0)
          [[initial_config self input_string]] 0).
Proof.
  intros Hs Hm. unfold run, passes. simpl loop.
  assert (Hg : guard (set_limits self md mt)
                 [[initial_config (set_limits self md mt) input_string]] 0 = true).
  { apply guard_true. simpl. split; [done | lia]. }
  rewrite Hg. unfold iteration. simpl.
  by rewrite (bool_decide_eq_true_2 _ Hs).
Qed.

Lemma reachable_length self input_string tree t :
  reachable successors self input_string tree t →
  tree ≠ [] ∧ Z.of_nat (length tree) <= Z.max 1 (max_depth self).
Proof.
  intros Hr. apply reachable_inv in Hr as (_ & _ & [[-> _]|(Hd & Hl & _)]).
  - split; [done | simpl; lia].
  - split; [intros ->; simpl in Hl; lia | lia].
Qed.

Lemma run_within_limits self input_string md mt :
  ∃ r, run successors self input_string md mt = Some r ∧
       Z.of_nat (length (tree r)) - 1 <= Z.max 1 md ∧
       0 <= expanded r <= Z.max 0 mt.
Proof.
  destruct (run_total successors self input_string md mt) as [r Hrun].
  exists r. split; [done|].
  apply run_exits in Hrun as (tr & t & Hreach & Hex).
  pose proof (reachable_length _ _ _ _ Hreach) as [Hne Hlen].
  apply reachable_inv in Hreach as (_ & Ht & _).
  simpl in Hlen, Ht.
  destruct Hex as [[Hg ->]|[Hg Hit]].
  - unfold expanded. simpl. lia.
  - apply guard_true in Hg as [_ Hlt]. simpl in Hlt.
    pose proof (scan_level_spec successors (set_limits self md mt)
                  (default [] (last tr)) t [] ltac:(simpl; lia)) as Hs.
    apply iteration_halt in Hit
      as [(t' & Hscan & ->)|[(t' & Hscan & ->)|(t' & nl & tr' & Hscan & -> & Hout)]];
      rewrite Hscan in Hs; simpl in Hs.
    + unfold expanded. simpl. lia.
    + unfold expanded. simpl. lia.
    + assert (Hlen' : Z.of_nat (length (if truthy nl then tr ++ [nl] else tr))
                      <= Z.of_nat (length tr) + 1).
      { destruct (truthy nl); [rewrite length_app; simpl|]; lia. }
      destruct Hs as (_ & _ & Ht' & Hle).
      destruct Hout as [[_ ->]|(_ & _ & ->)]; unfold expanded; simpl; lia.
Qed.

(** ** Rejection *)

Lemma any_not_rejected_false self level :
  any_not_rejected self level = false ↔
  Forall (λ c, state c = reject_state self) level.
Proof.
  unfold any_not_rejected. induction level as [|c level IH]; simpl.
  - split; [constructor | done].
  - rewrite orb_false_iff, IH, negb_false_iff, bool_decide_eq_true.
    split; [intros [? ?]; by constructor | by inversion 1].
Qed.

Lemma filter_live_rejected self level :
  Forall (λ c, state c = reject_state self) level →
  List.filter (live self) level = [].
Proof.
  induction 1 as [|c level Hc _ IH]; simpl; [done|].
  by rewrite (live_rejected _ _ Hc).
Qed.

Lemma expand_level_rejected self level :
  Forall (λ c, state c = reject_state self) level →
  expand_level successors self level = [].
Proof. intros H. unfold expand_level. by rewrite filter_live_rejected. Qed.

(** The tree a run ends with is built as the loop builds it. *)
Lemma exits_tree_ok self input_string tr t r :
  reachable successors self input_string tr t →
  exits successors self tr t r →
  tree_ok successors self input_string (tree r) ∧ machine r = self.
Proof.
  intros Hreach Hex. apply reachable_inv in Hreach as (Hok & Ht & _).
  destruct Hex as [[Hg ->]|[Hg Hit]]; [done|].
  apply guard_true in Hg as [Hne Hlt].
  destruct (last tr) as [level|] eqn:Hlast; [|by apply last_None in Hlast].
  apply iteration_halt in Hit
    as [(t' & Hscan & ->)|[(t' & Hscan & ->)|(t' & nl & tr' & Hscan & -> & Hout)]];
    [done | done |].
  rewrite Hlast in Hscan. simpl in Hscan.
  assert (Hok' : tree_ok successors self input_string
                   (if truthy nl then tr ++ [nl] else tr)).
  { destruct (truthy nl) eqn:Hnl; [|done].
    eapply tree_ok_snoc; [done | done |].
    eapply scan_done_step; [|done|by apply truthy_true]. lia. }
  by destruct Hout as [[_ ->]|(_ & _ & ->)].
Qed.

Lemma run_tree_ok self input_string md mt r :
  run successors self input_string md mt = Some r →
  tree_ok successors (set_limits self md mt) input_string (tree r) ∧
  machine r = set_limits self md mt.
Proof.
  intros Hrun. apply run_exits in Hrun as (tr & t & Hreach & Hex).
  by eapply exits_tree_ok.
Qed.

Lemma rejected_level_last self input_string md mt r (i : nat) level :
  run successors self input_string md mt = Some r →
  tree r !! i = Some level →
  Forall (λ c, state c = reject_state self) level →
  length (tree r) = S i.
Proof.
  intros Hrun Hi Hrej. apply run_tree_ok in Hrun as [[_ Hsteps] _].
  destruct (tree r !! S i) as [level'|] eqn:HSi.
  - destruct (Hsteps i level level' Hi HSi) as (_ & -> & Hne).
    by rewrite expand_level_rejected in Hne.
  - apply lookup_ge_None in HSi. apply lookup_lt_Some in Hi. lia.
Qed.

Lemma last_of_length {A} (l : list A) (i : nat) (x : A) :
  length l = S i → l !! i = Some x → last l = Some x.
Proof. intros Hl Hi. by rewrite last_lookup, Hl. Qed.

Lemma rejected_level_outcome self input_string md mt r (i : nat) level :
  run successors self input_string md mt = Some r →
  tree r !! i = Some level →
  Forall (λ c, state c = reject_state self) level →
  (0 < i)%nat ∨ (accept_state self ≠ reject_state self ∧ 0 < mt) →
  length (tree r) = S i ∧
  outcome r = if Z.of_nat (length (tree r)) >? md
              then StoppedDepth md else Rejected (Z.of_nat i).
Proof.
  intros Hrun Hi Hrej Hcond.
  pose proof (rejected_level_last _ _ _ _ _ _ _ Hrun Hi Hrej) as Hlen.
  split; [done|].
  pose proof (last_of_length _ _ _ Hlen Hi) as Hlast.
  apply run_exits in Hrun as (tr & t & Hreach & Hex).
  apply reachable_inv in Hreach as (_ & Ht & Hcase). simpl in Ht, Hcase.
  assert (Hfirst : last tr = Some level → length tr = S i →
                   t = 0 ∧ accept_state self ≠ reject_state self ∧ 0 < mt).
  { intros Hl Hn. destruct Hcase as [[-> ->]|(_ & _ & lv & Hlv & Hany)].
    - destruct Hcond as [Hpos|[? ?]]; [simpl in Hn; lia | done].
    - rewrite Hl in Hlv. injection Hlv as <-.
      apply (any_not_rejected_false (set_limits self md mt)) in Hrej. congruence. }
  destruct Hex as [[Hg ->]|[Hg Hit]].
  - simpl in *. destruct (Hfirst Hlast Hlen) as (-> & _ & Hmt).
    apply guard_false in Hg as [->|Hg]; [done | simpl in Hg; lia].
  - apply guard_true in Hg as [Hne Hlt]. simpl in Hlt.
    pose proof (scan_level_spec successors (set_limits self md mt)
                  (default [] (last tr)) t [] ltac:(simpl; lia)) as Hs.
    apply iteration_halt in Hit
      as [(t' & Hscan & ->)|[(t' & Hscan & ->)|(t' & nl & tr' & Hscan & -> & Hout)]];
      rewrite Hscan in Hs; simpl in Hs.
    + simpl in *. destruct (Hfirst Hlast Hlen) as (_ & Hneq & _).
      rewrite Hlast in Hs. simpl in Hs. destruct Hs as [_ Hex].
      apply Exists_exists in Hex as (c & Hc & Hacc).
      rewrite Forall_forall in Hrej. specialize (Hrej c Hc). congruence.
    + simpl in *. rewrite Hlast in Hs. simpl in Hs. destruct Hs as [_ Hlive].
      by rewrite (filter_live_rejected (set_limits self md mt)) in Hlive.
    + destruct Hout as [[Hd ->]|(Hd & _ & ->)]; simpl in *.
      * destruct (Z.gtb_spec (Z.of_nat (length (if truthy nl then tr ++ [nl] else tr))) md);
          [done | lia].
      * destruct (Z.gtb_spec (Z.of_nat (length (if truthy nl then tr ++ [nl] else tr))) md);
          [lia|].
        f_equal. lia.
Qed.


Lemma rejecting_level_outcome self input_string md mt tr t t' next_level :
  reachable successors (set_limits self md mt) input_string tr t →
  guard (set_limits self md mt) tr t = true →
  scan_level successors (set_limits self md mt) (default [] (last tr)) t [] =
    ScanDone t' next_level →
  next_level ≠ [] →
  Forall (λ c, state c = reject_state self) next_level →
  run successors self input_string md mt =
  Some (mkResult (set_limits self md mt)
          (if Z.of_nat (length tr) + 1 >? md
           then StoppedDepth md else Rejected (Z.of_nat (length tr)))
          (tr ++ [next_level]) t').
Proof.
  intros Hreach Hg Hscan Hne Hrej. eapply exits_run; [done|]. right. split; [done|].
  unfold iteration. rewrite Hscan. apply truthy_true in Hne. rewrite Hne.
  apply (any_not_rejected_false (set_limits self md mt)) in Hrej. rewrite Hrej.
  rewrite length_app. simpl length.
  replace (Z.of_nat (length tr + 1)) with (Z.of_nat (length tr) + 1) by lia.
  simpl. destruct (_ >? _); [done|].
  by replace (Z.of_nat (length tr) + 1 - 1) with (Z.of_nat (length tr)) by lia.
Qed.

End Limits.

(** ** The two files side by side *)

Lemma successors_agree self c :
  truthy (possible_transitions self c) = true →
  TraceNefario.successors self c = ProgramPy.successors self c.
Proof. intros H. unfold TraceNefario.successors. by rewrite H. Qed.

Lemma scan_agree self level t acc :
  level_defined self level = true →
  scan_level TraceNefario.successors self level t acc =
  scan_level ProgramPy.successors self level t acc.
Proof.
  revert t acc. induction level as [|c rest IH]; intros t acc Hdef; [done|].
  simpl in Hdef. apply andb_true_iff in Hdef as [Hc Hrest]. simpl.
  destruct (bool_decide_reflect (state c = accept_state self)) as [Ha|Ha]; [done|].
  destruct (bool_decide_reflect (state c = reject_state self)) as [Hr|Hr]; [by apply IH|].
  rewrite (live_other _ _ Ha Hr) in Hc. simpl in Hc.
  rewrite (successors_agree _ _ Hc). destruct (_ >? _); [done | by apply IH].
Qed.

Lemma iteration_agree self tree t :
  level_defined self (default [] (last tree)) = true →
  iteration TraceNefario.successors self tree t =
  iteration ProgramPy.successors self tree t.
Proof. intros H. unfold iteration. by rewrite scan_agree. Qed.

Lemma moves_defined_last self tree :
  moves_defined self tree = true →
  level_defined self (default [] (last tree)) = true.
Proof.
  induction tree as [|level tree IH]; [done|].
  simpl. intros [Hl Ht]%andb_true_iff.
  destruct tree as [|level' tree]; [done|]. by apply IH.
Qed.

Lemma moves_defined_app self tree rest :
  moves_defined self (tree ++ rest) = true → moves_defined self tree = true.
Proof. unfold moves_defined. rewrite forallb_app. by intros [? ?]%andb_true_iff. Qed.

(** The tree only grows at its end. *)
Lemma loop_extends successors self fuel tr0 t r :
  loop successors fuel self tr0 t = Some r → ∃ rest, tree r = tr0 ++ rest.
Proof.
  apply (loop_rule successors self (λ tr _, ∃ rest, tr = tr0 ++ rest)
           (λ r, ∃ rest, tree r = tr0 ++ rest)).
  - intros tr t1 [rest ->] _. by exists rest.
  - intros tr t1 r1 [rest ->] _ Hit.
    apply iteration_halt in Hit
      as [(t' & _ & ->)|[(t' & _ & ->)|(t' & nl & tr' & _ & -> & Hout)]];
      [by exists rest | by exists rest |].
    assert (∃ rest', (if truthy nl then (tr0 ++ rest) ++ [nl] else tr0 ++ rest)
                     = tr0 ++ rest') as [rest' Hrest].
    { destruct (truthy nl); [exists (rest ++ [nl]); by rewrite app_assoc | by exists rest]. }
    exists rest'. by destruct Hout as [[_ ->]|(_ & _ & ->)].
  - intros tr t1 tr' t' [rest ->] _ Hit.
    apply iteration_continue in Hit as (nl & _ & _ & -> & _).
    exists (rest ++ [nl]). by rewrite app_assoc.
  - exists []. by rewrite app_nil_r.
Qed.

Lemma loop_agree self fuel tr t r :
  loop ProgramPy.successors fuel self tr t = Some r →
  moves_defined self (tree r) = true →
  loop TraceNefario.successors fuel self tr t = Some r.
Proof.
  revert tr t. induction fuel as [|fuel IH]; intros tr t Hl Hdef.
  - simpl in *. by destruct (guard self tr t).
  - destruct (loop_extends _ _ _ _ _ _ Hl) as [rest Hrest].
    simpl in *. destruct (guard self tr t); [|done].
    assert (Hlast : level_defined self (default [] (last tr)) = true).
    { apply moves_defined_last. rewrite Hrest in Hdef. by eapply moves_defined_app. }
    rewrite (iteration_agree _ _ _ Hlast).
    destruct (iteration ProgramPy.successors self tr t) as [r'|tr' t']; [done|].
    by apply IH.
Qed.

Lemma runs_agree self input_string md mt r :
  ProgramPy.run self input_string md mt = Some r →
  moves_defined self (tree r) = true →
  TraceNefario.run self input_string md mt = Some r.
Proof. intros Hrun Hdef. by apply loop_agree. Qed.

(** ** Level widths *)

Lemma length_flat_map {A B} (f : A → list B) (l : list A) :
  length (flat_map f l) = list_sum (map (λ x, length (f x)) l).
Proof.
  induction l as [|x l IH]; simpl; [done|]. by rewrite length_app, IH.
Qed.

Lemma trace_successors_width self c :
  length (TraceNefario.successors self c) = width self c.
Proof.
  unfold TraceNefario.successors, width.
  destruct (possible_transitions self c); simpl; [done|]. by rewrite length_map.
Qed.

Lemma trace_implicit_reject self c :
  possible_transitions self c = [] →
  TraceNefario.successors self c =
  [mkConfig (left_tape c) (reject_state self) (right_tape c)].
Proof. intros H. unfold TraceNefario.successors. by rewrite H. Qed.

Lemma program_successors_length self c :
  length (ProgramPy.successors self c) = length (possible_transitions self c).
Proof. unfold ProgramPy.successors. by rewrite length_map. Qed.

Lemma trace_expand_width self level :
  length (expand_level TraceNefario.successors self level) = level_width self level.
Proof.
  unfold expand_level, level_width. rewrite length_flat_map.
  f_equal. apply map_ext. intros c. apply trace_successors_width.
Qed.

(** In [TM_trace_nefario.py] every level after the first is as wide as the
    specification says. *)
Lemma trace_level_widths self input_string md mt r (i : nat) level level' :
  TraceNefario.run self input_string md mt = Some r →
  tree r !! i = Some level →
  tree r !! S i = Some level' →
  length level' = level_width self level ∧
  Forall (λ c, state c ≠ accept_state self) level.
Proof.
  intros Hrun Hi HSi. apply run_tree_ok in Hrun as [[_ Hsteps] _].
  destruct (Hsteps i level level' Hi HSi) as (Hacc & -> & _).
  split; [apply (trace_expand_width (set_limits self md mt)) | done].
Qed.

(** In [program.py] a configuration without an entry adds nothing. *)
Lemma program_level_widths self input_string md mt r (i : nat) level level' :
  ProgramPy.run self input_string md mt = Some r →
  tree r !! i = Some level →
  tree r !! S i = Some level' →
  length level' =
  list_sum (map (λ c, length (possible_transitions self c))
              (List.filter (live self) level)).
Proof.
  intros Hrun Hi HSi. apply run_tree_ok in Hrun as [[_ Hsteps] _].
  destruct (Hsteps i level level' Hi HSi) as (Hacc & -> & _).
  unfold expand_level. rewrite length_flat_map.
  f_equal. apply map_ext. intros c.
  apply (program_successors_length (set_limits self md mt)).
Qed.

(** ** The transition table *)

Lemma get_absent (d : Table) key : d !! key = None → DefaultDict.get d key [] = [].
Proof. intros H. unfold DefaultDict.get. by rewrite H. Qed.

(** Reading [d[key]] binds an absent key, which [get] never does. *)
Lemma getitem_absent (d : Table) key :
  d !! key = None → (DefaultDict.getitem d key).1 !! key = Some [].
Proof. intros H. unfold DefaultDict.getitem. rewrite H. simpl. apply lookup_insert_eq. Qed.

Lemma get_append_at (d : Table) key e k :
  DefaultDict.get (DefaultDict.append_at d key e) k [] =
  DefaultDict.get d k [] ++ (if bool_decide (key = k) then [e] else []).
Proof.
  unfold DefaultDict.get, DefaultDict.append_at, DefaultDict.getitem.
  destruct (d !! key) as [v|] eqn:Hkey.
  - destruct (bool_decide_reflect (key = k)) as [<-|Hne].
    + by rewrite lookup_insert_eq, Hkey.
    + rewrite lookup_insert_ne by done. by rewrite app_nil_r.
  - destruct (bool_decide_reflect (key = k)) as [<-|Hne].
    + by rewrite lookup_insert_eq, Hkey.
    + rewrite !lookup_insert_ne by done. by rewrite app_nil_r.
Qed.

Lemma load_rows_get (rows : list (list string)) (tbl tbl' : Table) k :
  load_rows tbl rows = Some tbl' →
  DefaultDict.get tbl' k [] = DefaultDict.get tbl k [] ++ entries_of rows k.
Proof.
  revert tbl. induction rows as [|row rows IH]; intros tbl; simpl.
  - intros [= <-]. by rewrite app_nil_r.
  - destruct row as [|cs [|rs [|ns [|ws [|d [|x row]]]]]]; try discriminate.
    simpl. intros H. rewrite (IH _ H), get_append_at.
    destruct (bool_decide _); [by rewrite <- app_assoc | by rewrite app_nil_r].
Qed.

Lemma load_machine_table rows self :
  load_machine rows = Some self →
  load_rows ∅ (drop 7 rows) = Some (transitions self).
Proof.
  unfold load_machine. intros H. simplify_option_eq. done.
Qed.

Lemma load_machine_get rows self key :
  load_machine rows = Some self →
  DefaultDict.get (transitions self) key [] = entries_of (drop 7 rows) key.
Proof.
  intros H. apply load_machine_table in H. by rewrite (load_rows_get _ _ _ _ H).
Qed.

(** * The specification, claim by claim *)

Import Examples.

(** ** The two files *)

(** C1.  The two files are meant to run alike, and [program.py] does not: on
    the machine without a transition, input [a], depth limit 100 and budget
    1000, [program.py] appends nothing for the start configuration and
    rejects at depth 0 with a tree of one level, where [TM_trace_nefario.py]
    appends the configuration in the reject state and rejects at depth 1 with
    a tree of two levels.  Neither the outcome nor the tree is the same. *)
Lemma runs_differ_without_a_move :
  ∃ r1 r2,
    ProgramPy.run M_none "a" 100 1000 = Some r1 ∧
    TraceNefario.run M_none "a" 100 1000 = Some r2 ∧
    outcome r1 = Rejected 0 ∧ outcome r2 = Rejected 1 ∧
    length (tree r1) = 1%nat ∧ length (tree r2) = 2%nat ∧
    ¬ (outcome r1 = outcome r2 ∧ tree r1 = tree r2).
Proof.
  eexists. eexists. split; [vm_compute; reflexivity|].
  split; [vm_compute; reflexivity|]. simpl.
  repeat split. intros [H _]. discriminate.
Qed.

(** A sufficient condition for the two runs to be the same.  When every
    configuration in the tree of the run of [program.py] that neither accepts
    nor is rejected has an entry for its state and head symbol, the run of
    [TM_trace_nefario.py] ends with the same outcome, the same depth, the
    same tree and the same counter. *)
Theorem same_run_when_moves_defined self input_string md mt r :
  ProgramPy.run self input_string md mt = Some r →
  moves_defined self (tree r) = true →
  TraceNefario.run self input_string md mt = Some r.
Proof. intros Hrun Hdef. by apply loop_agree. Qed.

Lemma same_run_when_moves_defined_witness :
  let r := mkResult (set_limits M_accept 100 1000) (Accepted 1)
             [[mkConfig "" "q0" "a"]; [mkConfig "b" "qa" "_"]] 1 in
  ProgramPy.run M_accept "a" 100 1000 = Some r ∧
  moves_defined M_accept (tree r) = true ∧
  TraceNefario.run M_accept "a" 100 1000 = Some r.
Proof.
  intros r.
  assert (H1 : ProgramPy.run M_accept "a" 100 1000 = Some r) by reflexivity.
  assert (H2 : moves_defined M_accept (tree r) = true) by reflexivity.
  split; [exact H1|]. split; [exact H2|].
  exact (same_run_when_moves_defined M_accept "a" 100 1000 r H1 H2).
Defined.

(** ** Level widths *)

(** C2.  On the machine with two branches, level 1 of the run of [program.py]
    holds a configuration in [q1], which has no move, and one in [q2], which
    has one: the specification makes level 2 two wide, the run of [program.py]
    makes it one wide, and the run of [TM_trace_nefario.py] two wide. *)
Theorem program_py_drops_the_undefined_move :
  ∃ r r' level1 level2 level2',
    ProgramPy.run M_branch "a" 2 1000 = Some r ∧
    TraceNefario.run M_branch "a" 2 1000 = Some r' ∧
    tree r !! 1%nat = Some level1 ∧ tree r' !! 1%nat = Some level1 ∧
    tree r !! 2%nat = Some level2 ∧ tree r' !! 2%nat = Some level2' ∧
    level_width M_branch level1 = 2%nat ∧
    length level2 = 1%nat ∧ length level2' = 2%nat.
Proof.
  do 5 eexists. split; [vm_compute; reflexivity|].
  split; [vm_compute; reflexivity|]. simpl.
  split; [reflexivity|]. split; [reflexivity|].
  split; [reflexivity|]. split; [reflexivity|].
  split; [vm_compute; reflexivity|]. split; reflexivity.
Qed.

(** ** Termination and limits *)

(** With [max_depth = 0] a level is still added after the initial one. *)
Lemma depth_zero_adds_a_level :
  ∃ r1 r2,
    run_of program_py M_accept "a" 0 1000 = Some r1 ∧
    run_of TM_trace_nefario_py M_accept "a" 0 1000 = Some r2 ∧
    ¬ (Z.of_nat (length (tree r1)) - 1 <= 0) ∧
    ¬ (Z.of_nat (length (tree r2)) - 1 <= 0).
Proof.
  do 2 eexists. split; [vm_compute; reflexivity|].
  split; [vm_compute; reflexivity|]. simpl. lia.
Qed.

(** C3, amended.  In either file [run] returns, for all limits; the tree it
    leaves has at most [max 1 max_depth] levels after the initial one, and it
    has expanded at most [max 0 max_transitions] configurations. *)
Theorem run_terminates_within_limits (f : SourceFile) self input_string md mt :
  ∃ r, run_of f self input_string md mt = Some r ∧
       Z.of_nat (length (tree r)) - 1 <= Z.max 1 md ∧
       0 <= expanded r <= Z.max 0 mt.
Proof. apply run_within_limits. Qed.

(** The counter counts expanded configurations, not successors: with a budget
    of one, the one expansion of the start configuration adds two. *)
Example budget_counts_expansions :
  ∃ r, run_of program_py M_branch "a" 100 1 = Some r ∧
       counter r = 1 ∧ length <$> tree r !! 1%nat = Some 2%nat.
Proof. eexists. split; [vm_compute; reflexivity|]. split; reflexivity. Qed.

(** ** Rejection *)

(** A level of rejected configurations only, added when the tree reaches
    [max_depth + 1] levels: the depth limit is reported, not the rejection. *)
Lemma rejected_level_at_max_depth :
  ∃ r1 r2 level,
    run_of program_py M_reject "a" 1 1000 = Some r1 ∧
    run_of TM_trace_nefario_py M_reject "a" 1 1000 = Some r2 ∧
    tree r1 !! 1%nat = Some level ∧ tree r2 !! 1%nat = Some level ∧
    Forall (λ c, state c = reject_state M_reject) level ∧
    outcome r1 = StoppedDepth 1 ∧ outcome r2 = StoppedDepth 1 ∧
    outcome r1 ≠ Rejected 1 ∧ outcome r2 ≠ Rejected 1.
Proof.
  do 3 eexists. split; [vm_compute; reflexivity|].
  split; [vm_compute; reflexivity|]. simpl.
  split; [reflexivity|]. split; [reflexivity|].
  split; [by repeat constructor|]. by repeat split.
Qed.

(** C4, amended.  In either file, when every configuration of some level of
    the tree [run] leaves is in the reject state (at level 0: provided the
    accept and reject states differ and the budget is positive), that level
    is the last one, and [run] reports the rejection at that level's index,
    unless the tree has more than [max_depth] levels: the depth limit is
    tested first and reported then. *)
Theorem uniform_reject_halts (f : SourceFile) self input_string md mt r
    (i : nat) level :
  run_of f self input_string md mt = Some r →
  tree r !! i = Some level →
  Forall (λ c, state c = reject_state self) level →
  (0 < i)%nat ∨ (accept_state self ≠ reject_state self ∧ 0 < mt) →
  length (tree r) = S i ∧
  outcome r = if Z.of_nat (length (tree r)) >? md
              then StoppedDepth md else Rejected (Z.of_nat i).
Proof. apply rejected_level_outcome. Qed.

Lemma uniform_reject_halts_witness :
  let r := mkResult (set_limits M_reject 100 1000) (Rejected 1)
             [[mkConfig "" "q0" "a"]; [mkConfig "a" "qr" "_"]] 1 in
  run_of program_py M_reject "a" 100 1000 = Some r ∧
  tree r !! 1%nat = Some [mkConfig "a" "qr" "_"] ∧
  length (tree r) = 2%nat ∧ outcome r = Rejected 1.
Proof.
  intros r.
  assert (H1 : run_of program_py M_reject "a" 100 1000 = Some r) by reflexivity.
  assert (H2 : tree r !! 1%nat = Some [mkConfig "a" "qr" "_"]) by reflexivity.
  assert (H3 : Forall (λ c, state c = reject_state M_reject) [mkConfig "a" "qr" "_"])
    by (constructor; [reflexivity | constructor]).
  assert (H4 : (0 < 1)%nat ∨ (accept_state M_reject ≠ reject_state M_reject ∧ 0 < 1000))
    by (left; lia).
  split; [exact H1|]. split; [exact H2|].
  exact (uniform_reject_halts program_py M_reject "a" 100 1000 r 1
           [mkConfig "a" "qr" "_"] H1 H2 H3 H4).
Defined.




(** The other rejection: a level of rejected configurations is added, and the
    depth reported is its index, one more than after an empty scan. *)
Lemma rejecting_next_level_rejects (f : SourceFile) self input_string md mt tr t t'
    next_level :
  reachable (successors_of f) (set_limits self md mt) input_string tr t →
  guard (set_limits self md mt) tr t = true →
  scan_level (successors_of f) (set_limits self md mt) (default [] (last tr)) t [] =
    ScanDone t' next_level →
  next_level ≠ [] →
  Forall (λ c, state c = reject_state self) next_level →
  Z.of_nat (length tr) + 1 <= md →
  run_of f self input_string md mt =
  Some (mkResult (set_limits self md mt) (Rejected (Z.of_nat (length tr)))
          (tr ++ [next_level]) t').
Proof.
  intros Hreach Hg Hscan Hne Hrej Hmd. unfold run_of.
  rewrite (rejecting_level_outcome _ _ _ _ _ _ _ _ _ Hreach Hg Hscan Hne Hrej).
  destruct (Z.gtb_spec (Z.of_nat (length tr) + 1) md); [lia | done].
Qed.

(** ** The start state and the budget *)

(** The start state is the accept state, and the budget is zero: the loop is
    not entered and no acceptance is reported. *)
Lemma start_accepts_without_budget :
  start_state M_start_accepts = accept_state M_start_accepts ∧
  ∃ r1 r2,
    run_of program_py M_start_accepts "a" 100 0 = Some r1 ∧
    run_of TM_trace_nefario_py M_start_accepts "a" 100 0 = Some r2 ∧
    outcome r1 = NoValidPaths ∧ outcome r2 = NoValidPaths ∧
    outcome r1 ≠ Accepted 0 ∧ outcome r2 ≠ Accepted 0.
Proof.
  split; [reflexivity|]. do 2 eexists.
  split; [vm_compute; reflexivity|]. split; [vm_compute; reflexivity|].
  by repeat split.
Qed.

(** C6, amended.  In either file, when the start state is the accept state
    and [max_transitions] is at least one, [run] reports acceptance at depth
    0; the tree is the one level with the initial configuration, and the
    counter is still zero. *)
Theorem start_in_accept_state (f : SourceFile) self input_string md mt :
  start_state self = accept_state self →
  0 < mt →
  run_of f self input_string md mt =
  Some (mkResult (set_limits self md mt) (Accepted 0)
          [[initial_config self input_string]] 0).
Proof. apply run_start_accepts. Qed.

(** What is printed then: the one configuration of level 0. *)
Example start_in_accept_state_path self input_string :
  print_accept_path [[initial_config self input_string]] 0 =
  [(0%nat, initial_config self input_string)].
Proof. reflexivity. Qed.

Lemma start_in_accept_state_witness :
  start_state M_start_accepts = accept_state M_start_accepts ∧
  0 < 1000 ∧
  run_of TM_trace_nefario_py M_start_accepts "a" 100 1000 =
  Some (mkResult (set_limits M_start_accepts 100 1000) (Accepted 0)
          [[mkConfig "" "q0" "a"]] 0).
Proof.
  assert (H1 : start_state M_start_accepts = accept_state M_start_accepts)
    by reflexivity.
  assert (H2 : 0 < 1000) by lia.
  split; [exact H1|]. split; [exact H2|].
  exact (start_in_accept_state TM_trace_nefario_py M_start_accepts "a" 100 1000 H1 H2).
Defined.

(** C7.  In either file, with [max_transitions = 0] the loop is not entered:
    [run] ends on its last message, the tree is the one level with the
    initial configuration, and the counter is zero. *)
Theorem zero_budget_exhausts (f : SourceFile) self input_string md :
  run_of f self input_string md 0 =
  Some (mkResult (set_limits self md 0) NoValidPaths
          [[initial_config self input_string]] 0).
Proof. reflexivity. Qed.

(** C10.  In either file there is a run that ends on its last message with a
    configuration in the accept state in the last level of the tree: one
    transition from the start state into the accept state, and a budget of
    one. *)
Theorem accept_in_last_level_unreported (f : SourceFile) :
  ∃ self input_string mt r level c,
    run_of f self input_string 100 mt = Some r ∧
    outcome r = NoValidPaths ∧
    counter r = mt ∧
    last (tree r) = Some level ∧
    c ∈ level ∧
    state c = accept_state self.
Proof.
  exists M_accept, "a", 1.
  exists (mkResult (set_limits M_accept 100 1) NoValidPaths
            [[mkConfig "" "q0" "a"]; [mkConfig "b" "qa" "_"]] 1).
  exists [mkConfig "b" "qa" "_"], (mkConfig "b" "qa" "_").
  split; [by destruct f|]. repeat split. by apply list_elem_of_singleton.
Qed.

(** With one more transition in the budget the same run accepts. *)
Example accept_with_budget_two (f : SourceFile) :
  outcome <$> run_of f M_accept "a" 100 2 = Some (Accepted 1).
Proof. by destruct f. Qed.

(** ** The table during a run *)

(** C9.  For a machine the loader built, [get] returns for every key the
    entries of its rows in row order, and the empty list for an absent key;
    every query of a run is such a [get]; and the object [run] leaves holds
    the table the loader built. *)
Theorem table_read_only (f : SourceFile) rows self input_string md mt :
  load_machine rows = Some self →
  (∀ key, DefaultDict.get (transitions self) key [] = entries_of (drop 7 rows) key) ∧
  (∀ key, transitions self !! key = None →
          DefaultDict.get (transitions self) key [] = []) ∧
  (∀ c, possible_transitions (set_limits self md mt) c =
        entries_of (drop 7 rows) (state c, head_symbol (right_tape c))) ∧
  ∃ r, run_of f self input_string md mt = Some r ∧
       transitions (machine r) = transitions self.
Proof.
  intros Hload. split; [|split; [|split]].
  - intros key. by apply load_machine_get.
  - intros key. apply get_absent.
  - intros c. unfold possible_transitions. simpl. by apply load_machine_get.
  - destruct (run_total (successors_of f) self input_string md mt) as [r Hrun].
    exists r. split; [done|]. apply run_tree_ok in Hrun as [_ ->]. reflexivity.
Qed.

Lemma table_read_only_witness :
  load_machine rows_accept = Some M_accept ∧
  DefaultDict.get (transitions M_accept) ("q0", "a") [] = [("qa", "b", "R")] ∧
  DefaultDict.get (transitions M_accept) ("q0", "_") [] = [] ∧
  ∃ r, run_of program_py M_accept "a" 100 1000 = Some r ∧
       transitions (machine r) = transitions M_accept.
Proof.
  assert (H1 : load_machine rows_accept = Some M_accept) by (vm_compute; reflexivity).
  pose proof (table_read_only program_py rows_accept M_accept "a" 100 1000 H1)
    as (Hget & _ & _ & Hrun).
  split; [exact H1|]. split; [exact (Hget ("q0", "a"))|].
  split; [exact (Hget ("q0", "_"))|]. exact Hrun.
Defined.

(** * Further properties of the code *)

(** ** One transition on the strings *)

Lemma write_head_chars (r w : string) :
  write_head (Str.chars r) w = w :: Str.chars (behind_head r).
Proof. by destruct r. Qed.

(** C.f. the three branches of the "Move head" block, for a written field of
    any length. *)
Lemma apply_left_any (c : Config) (s' w : string) :
  apply_transition c (s', w, "L") =
  mkConfig (string_of_list_ascii (removelast (list_ascii_of_string (left_tape c))))
    s'
    (String (List.last (list_ascii_of_string (left_tape c)) blank)
       (w +:+ behind_head (right_tape c))).
Proof.
  unfold apply_transition.
  rewrite (chars_map_sym (left_tape c)), move_left_chars, join_map_sym.
  rewrite write_head_chars. simpl. by rewrite join_chars.
Qed.

Lemma apply_right_any (c : Config) (s' w : string) :
  apply_transition c (s', w, "R") =
  mkConfig (left_tape c +:+ w) s'
    (match behind_head (right_tape c) with
     | EmptyString => "_"
     | String _ _ => behind_head (right_tape c)
     end).
Proof.
  unfold apply_transition. rewrite write_head_chars.
  unfold move_head. simpl bool_decide. cbv iota.
  destruct (behind_head (right_tape c)) as [|h r] eqn:Hb; simpl.
  - by rewrite join_snoc, join_chars.
  - by rewrite join_snoc, !join_chars.
Qed.

Lemma apply_stay_any (c : Config) (s' w d : string) :
  d ≠ "L" → d ≠ "R" →
  apply_transition c (s', w, d) =
  mkConfig (left_tape c) s' (w +:+ behind_head (right_tape c)).
Proof.
  intros HL HR. unfold apply_transition. rewrite write_head_chars.
  unfold move_head.
  rewrite (bool_decide_eq_false_2 _ HL), (bool_decide_eq_false_2 _ HR).
  simpl. by rewrite !join_chars.
Qed.

(** X1.  The successor by an entry, as strings, for a written field of any
    length: to the left, the last cell of the left tape (a blank when there
    is none) comes before the written field; to the right, the written field
    goes to the end of the left tape and a blank is put on a right tape that
    ends; with any other direction only the cell under the head changes. *)
Theorem successor_strings (c : Config) (s' w d : string) :
  apply_transition c (s', w, d) =
  if bool_decide (d = "L") then
    mkConfig (string_of_list_ascii (removelast (list_ascii_of_string (left_tape c))))
      s'
      (String (List.last (list_ascii_of_string (left_tape c)) blank)
         (w +:+ behind_head (right_tape c)))
  else if bool_decide (d = "R") then
    mkConfig (left_tape c +:+ w) s'
      (match behind_head (right_tape c) with
       | EmptyString => "_"
       | String _ _ => behind_head (right_tape c)
       end)
  else mkConfig (left_tape c) s' (w +:+ behind_head (right_tape c)).
Proof.
  destruct (bool_decide_reflect (d = "L")) as [->|HL]; [apply apply_left_any|].
  destruct (bool_decide_reflect (d = "R")) as [->|HR]; [apply apply_right_any|].
  by apply apply_stay_any.
Qed.

Lemma append_eq_nil (x y : string) :
  x +:+ y = EmptyString ↔ x = EmptyString ∧ y = EmptyString.
Proof.
  destruct x as [|a x].
  - rewrite append_nil. split; [by intros -> | by intros [_ ->]].
  - rewrite append_cons. split; [discriminate | by intros [? _]].
Qed.

(** X2.  The right tape of a successor is never empty after a move to the
    left or to the right: it is empty only when the direction is neither,
    the written field is empty and nothing lies behind the head. *)
Theorem successor_right_tape_empty (c : Config) (s' w d : string) :
  right_tape (apply_transition c (s', w, d)) = EmptyString ↔
  d ≠ "L" ∧ d ≠ "R" ∧ w = EmptyString ∧ behind_head (right_tape c) = EmptyString.
Proof.
  destruct (decide (d = "L")) as [->|HL].
  { rewrite apply_left_any. simpl. split; [discriminate | by intros [? _]]. }
  destruct (decide (d = "R")) as [->|HR].
  { rewrite apply_right_any. simpl.
    split; [by destruct (behind_head (right_tape c)) | by intros (_ & ? & _)]. }
  rewrite apply_stay_any by done. simpl. rewrite append_eq_nil.
  split; [by intros [? ?] | by intros (_ & _ & ? & ?)].
Qed.

(** ** One transition on the tape *)

Lemma nth_rev_removelast (la : list ascii) (n : nat) :
  nth n (rev (removelast la)) blank = nth (S n) (rev la) blank.
Proof.
  destruct la as [|a la] using rev_ind.
  - simpl. by destruct n.
  - by rewrite removelast_last, rev_app_distr.
Qed.

Lemma nth_rev_last (la : list ascii) :
  List.last la blank = nth 0 (rev la) blank.
Proof.
  destruct la as [|a la] using rev_ind; [done|].
  by rewrite last_last, rev_app_distr.
Qed.

Lemma nth_behind (r : string) (n : nat) :
  nth n (list_ascii_of_string (behind_head r)) blank =
  nth (S n) (list_ascii_of_string r) blank.
Proof. destruct r; simpl; [by destruct n | done]. Qed.

(** X3.  A transition that writes one symbol is the step of a Turing machine
    on the tape the configuration denotes.  Seen from the new head: after a
    move to the left the written symbol is one cell to the right and every
    other cell is the old cell one further left; after a move to the right
    the written symbol is one cell to the left and every other cell is the
    old cell one further right; with any other direction the head stays on
    the written symbol.  The state is the new state. *)
Theorem step_on_tape (c : Config) (a : ascii) (s' d : string) (k : Z) :
  state (apply_transition c (s', Str.sym a, d)) = s' ∧
  cell (apply_transition c (s', Str.sym a, d)) k =
  if bool_decide (d = "L") then (if k =? 1 then a else cell c (k - 1))
  else if bool_decide (d = "R") then (if k =? -1 then a else cell c (k + 1))
  else (if k =? 0 then a else cell c k).
Proof.
  destruct (bool_decide_reflect (d = "L")) as [->|HL].
  { rewrite apply_left_any. split; [done|]. unfold cell. simpl left_tape. simpl right_tape.
    rewrite list_of_string_of.
    destruct (Z.leb_spec 0 k) as [Hk|Hk].
    - destruct (Z.eqb_spec k 1) as [->|Hk1]; [done|].
      destruct (Z.leb_spec 0 (k - 1)) as [Hk'|Hk'].
      + replace (Z.to_nat k) with (S (S (Z.to_nat (k - 2)))) by lia.
        replace (Z.to_nat (k - 1)) with (S (Z.to_nat (k - 2))) by lia.
        simpl. apply nth_behind.
      + assert (k = 0) as -> by lia. simpl. apply nth_rev_last.
    - destruct (Z.eqb_spec k 1) as [->|_]; [lia|].
      destruct (Z.leb_spec 0 (k - 1)) as [Hk'|_]; [lia|].
      rewrite nth_rev_removelast. f_equal. lia. }
  destruct (bool_decide_reflect (d = "R")) as [->|HR].
  { rewrite apply_right_any. split; [done|]. unfold cell. simpl left_tape. simpl right_tape.
    rewrite list_of_app, rev_app_distr. simpl rev.
    destruct (Z.leb_spec 0 k) as [Hk|Hk].
    - destruct (Z.eqb_spec k (-1)) as [->|_]; [lia|].
      destruct (Z.leb_spec 0 (k + 1)) as [_|Hk']; [|lia].
      rewrite nth_behind_head. f_equal. lia.
    - destruct (Z.eqb_spec k (-1)) as [->|Hk1]; [done|].
      destruct (Z.leb_spec 0 (k + 1)) as [Hk'|_]; [lia|].
      replace (Z.to_nat (- k - 1)) with (S (Z.to_nat (- (k + 1) - 1))) by lia.
      done. }
  rewrite apply_stay_any by done. split; [done|]. unfold cell. simpl left_tape. simpl right_tape.
  destruct (Z.leb_spec 0 k) as [Hk|Hk].
  - destruct (Z.eqb_spec k 0) as [->|Hk0]; [done|].
    replace (Z.to_nat k) with (S (Z.to_nat (k - 1))) by lia.
    exact (nth_behind (right_tape c) (Z.to_nat (k - 1))).
  - destruct (Z.eqb_spec k 0) as [->|_]; [lia | done].
Qed.

(** ** The loader *)

Lemma load_rows_is_Some (tbl : Table) (rows : list (list string)) :
  is_Some (load_rows tbl rows) ↔ Forall (λ row, length row = 5%nat) rows.
Proof.
  revert tbl. induction rows as [|row rows IH]; intros tbl; simpl.
  - split; [constructor | by eexists].
  - destruct row as [|cs [|rs [|ns [|ws [|d [|x row]]]]]]; simpl;
      try (split; [by intros [? ?] | by inversion 1]).
    rewrite IH. split; [by constructor | by inversion 1].
Qed.

Lemma first_field_row (rows : list (list string)) (i : nat) :
  is_Some (first_field rows i) → is_Some (rows !! i).
Proof. unfold first_field. destruct (rows !! i); [by eexists | by intros [? ?]]. Qed.

(** X4.  The loader succeeds exactly on well-formed rows: rows 0, 4, 5 and 6
    exist and have a first field, and every row from the eighth on has
    exactly five fields.  On any other rows it raises. *)
Theorem load_machine_succeeds_iff (rows : list (list string)) :
  is_Some (load_machine rows) ↔ well_formed_rows rows.
Proof.
  unfold well_formed_rows. split.
  - intros [self Hload]. unfold load_machine in Hload.
    destruct (rows !! 0%nat ≫= (.!! 0%nat)) as [x0|] eqn:H0; [|done]. simpl in Hload.
    destruct (rows !! 1%nat) as [r1|]; [|done]. simpl in Hload.
    destruct (rows !! 2%nat) as [r2|]; [|done]. simpl in Hload.
    destruct (rows !! 3%nat) as [r3|]; [|done]. simpl in Hload.
    destruct (rows !! 4%nat ≫= (.!! 0%nat)) as [x4|] eqn:H4; [|done]. simpl in Hload.
    destruct (rows !! 5%nat ≫= (.!! 0%nat)) as [x5|] eqn:H5; [|done]. simpl in Hload.
    destruct (rows !! 6%nat ≫= (.!! 0%nat)) as [x6|] eqn:H6; [|done]. simpl in Hload.
    destruct (load_rows ∅ (drop 7 rows)) as [tbl|] eqn:Ht; [|done].
    split.
    + unfold first_field. intros i [<-|[<-|[<-|[<-|[]]]]]; by eexists.
    + apply (load_rows_is_Some ∅). by eexists.
  - intros [Hfields Hrows].
    destruct (Hfields 0%nat) as [x0 H0]; [simpl; tauto|].
    destruct (Hfields 4%nat) as [x4 H4]; [simpl; tauto|].
    destruct (Hfields 5%nat) as [x5 H5]; [simpl; tauto|].
    destruct (Hfields 6%nat) as [x6 H6]; [simpl; tauto|].
    assert (Hlen : (6 < length rows)%nat).
    { apply lookup_lt_is_Some, first_field_row. by eexists. }
    destruct (lookup_lt_is_Some_2 rows 1) as [r1 H1]; [lia|].
    destruct (lookup_lt_is_Some_2 rows 2) as [r2 H2]; [lia|].
    destruct (lookup_lt_is_Some_2 rows 3) as [r3 H3]; [lia|].
    apply (load_rows_is_Some ∅) in Hrows as [tbl Ht].
    unfold first_field in *. unfold load_machine.
    rewrite H0, H1, H2, H3, H4, H5, H6. simpl. rewrite Ht. simpl. by eexists.
Qed.

Lemma load_machine_rows (rows : list (list string)) self :
  load_machine rows = Some self →
  Forall (λ row, length row = 5%nat) (drop 7 rows).
Proof.
  intros H. apply (load_rows_is_Some ∅). apply load_machine_table in H. by eexists.
Qed.

Lemma entries_of_In (rows : list (list string)) cs rs ns ws d :
  Forall (λ row, length row = 5%nat) rows →
  In (ns, ws, d) (entries_of rows (cs, rs)) ↔ In [cs; rs; ns; ws; d] rows.
Proof.
  induction 1 as [|row rows Hrow _ IH]; simpl; [done|].
  destruct row as [|cs' [|rs' [|ns' [|ws' [|d' [|x row]]]]]]; try discriminate.
  destruct (bool_decide_reflect ((cs', rs') = (cs, rs))) as [Heq|Hne].
  - injection Heq as -> ->. simpl. rewrite IH.
    split; (intros [Hhd|?]; [left; congruence | by right]).
  - rewrite IH. split; [by right|]. intros [Hhd|?]; [|done].
    exfalso. apply Hne. congruence.
Qed.

(** X5.  What the loader stores is what the rows say: an entry is returned
    for a key exactly when the rows after the seventh hold the row made of
    the key and the entry. *)
Theorem table_holds_the_rows (rows : list (list string)) self cs rs ns ws d :
  load_machine rows = Some self →
  In (ns, ws, d) (DefaultDict.get (transitions self) (cs, rs) []) ↔
  In [cs; rs; ns; ws; d] (drop 7 rows).
Proof.
  intros Hload. rewrite (load_machine_get _ _ _ Hload).
  apply entries_of_In. by eapply load_machine_rows.
Qed.

Lemma table_holds_the_rows_witness :
  load_machine Examples.rows_branch = Some Examples.M_branch ∧
  In ("q2", "a", "R")
    (DefaultDict.get (transitions Examples.M_branch) ("q0", "a") []).
Proof.
  assert (H : load_machine Examples.rows_branch = Some Examples.M_branch)
    by (vm_compute; reflexivity).
  split; [exact H|].
  apply (table_holds_the_rows _ _ "q0" "a" "q2" "a" "R" H).
  simpl. tauto.
Defined.

Lemma append_at_bound (d : Table) key e :
  (∀ k v, d !! k = Some v → v ≠ []) →
  ∀ k v, DefaultDict.append_at d key e !! k = Some v → v ≠ [].
Proof.
  intros Hd k v. unfold DefaultDict.append_at, DefaultDict.getitem.
  destruct (d !! key) as [v0|] eqn:Hkey.
  - destruct (decide (key = k)) as [<-|Hne].
    + rewrite lookup_insert_eq. intros [= <-]. by destruct v0.
    + rewrite lookup_insert_ne by done. apply Hd.
  - destruct (decide (key = k)) as [<-|Hne].
    + rewrite lookup_insert_eq. by intros [= <-].
    + rewrite !lookup_insert_ne by done. apply Hd.
Qed.

Lemma load_rows_bound (rows : list (list string)) (tbl tbl' : Table) :
  (∀ k v, tbl !! k = Some v → v ≠ []) →
  load_rows tbl rows = Some tbl' →
  ∀ k v, tbl' !! k = Some v → v ≠ [].
Proof.
  revert tbl. induction rows as [|row rows IH]; intros tbl Htbl; simpl.
  - by intros [= <-].
  - destruct row as [|cs [|rs [|ns [|ws [|d [|x row]]]]]]; try discriminate.
    simpl. apply IH. by apply append_at_bound.
Qed.

(** X6.  The loader binds no key to an empty list: the table answers a query
    with the empty list exactly for the keys it does not hold, which are the
    keys without a row. *)
Theorem empty_answer_means_absent (rows : list (list string)) self key :
  load_machine rows = Some self →
  (DefaultDict.get (transitions self) key [] = [] ↔ transitions self !! key = None) ∧
  (transitions self !! key = None ↔ entries_of (drop 7 rows) key = []).
Proof.
  intros Hload.
  assert (Hbound : ∀ k v, transitions self !! k = Some v → v ≠ []).
  { apply load_machine_table in Hload.
    eapply load_rows_bound; [|done]. intros k v. by rewrite lookup_empty. }
  assert (H1 : DefaultDict.get (transitions self) key [] = [] ↔
               transitions self !! key = None).
  { unfold DefaultDict.get. destruct (transitions self !! key) as [v|] eqn:Hk.
    - split; [|done]. intros ->. by destruct (Hbound key [] Hk).
    - done. }
  split; [done|]. by rewrite <- H1, (load_machine_get _ _ _ Hload).
Qed.

Lemma empty_answer_means_absent_witness :
  load_machine Examples.rows_branch = Some Examples.M_branch ∧
  (DefaultDict.get (transitions Examples.M_branch) ("q1", "_") [] = [] ↔
   transitions Examples.M_branch !! ("q1", "_") = None).
Proof.
  assert (H : load_machine Examples.rows_branch = Some Examples.M_branch)
    by (vm_compute; reflexivity).
  split; [exact H|].
  exact (proj1 (empty_answer_means_absent _ _ ("q1", "_") H)).
Defined.

(** ** The search *)

Section Search.

Variable successors : Machine → Config → list Config.

(** Every way [run] ends, from the state of the last loop test. *)
Lemma run_cases self input_string md mt r :
  run successors self input_string md mt = Some r →
  ∃ tr t level,
    reachable successors (set_limits self md mt) input_string tr t ∧
    last tr = Some level ∧
    ((mt <= t ∧ r = mkResult (set_limits self md mt) NoValidPaths tr t) ∨
     (t < mt ∧
      ((∃ t', scan_level successors (set_limits self md mt) level t [] = ScanAccept t' ∧
              r = mkResult (set_limits self md mt)
                    (Accepted (Z.of_nat (length tr) - 1)) tr t') ∨
       (∃ t', scan_level successors (set_limits self md mt) level t [] = ScanBudget t' ∧
              r = mkResult (set_limits self md mt) (StoppedTransitions mt) tr t') ∨
       (∃ t' next_level tr',
          scan_level successors (set_limits self md mt) level t [] =
            ScanDone t' next_level ∧
          tr' = (if truthy next_level then tr ++ [next_level] else tr) ∧
          ((md < Z.of_nat (length tr') ∧
            r = mkResult (set_limits self md mt) (StoppedDepth md) tr' t') ∨
           (Z.of_nat (length tr') <= md ∧
            any_not_rejected (set_limits self md mt) next_level = false ∧
            r = mkResult (set_limits self md mt)
                  (Rejected (Z.of_nat (length tr') - 1)) tr' t')))))).
Proof.
  intros Hrun. apply run_exits in Hrun as (tr & t & Hreach & Hex).
  pose proof (reachable_length _ _ _ _ _ Hreach) as [Hne _].
  destruct (last tr) as [level|] eqn:Hlast; [|by apply last_None in Hlast].
  exists tr, t, level. split; [done|]. split; [done|].
  destruct Hex as [[Hg ->]|[Hg Hit]].
  - left. apply guard_false in Hg as [->|Hg]; [done|]. by split.
  - right. apply guard_true in Hg as [_ Hlt]. split; [done|].
    apply iteration_halt in Hit. rewrite Hlast in Hit. exact Hit.
Qed.

Lemma last_snoc_removelast {A} (l : list A) (x : A) :
  last l = Some x → l = removelast l ++ [x].
Proof.
  destruct l as [|y l] using rev_ind; [done|].
  rewrite last_snoc, removelast_last. by intros [= ->].
Qed.

Lemma live_count_snoc self (tr : list (list Config)) level :
  live_count self (tr ++ [level]) =
  (live_count self tr + length (List.filter (live self) level))%nat.
Proof.
  unfold live_count. rewrite map_app, list_sum_app. simpl. lia.
Qed.

Lemma expand_level_nonempty self level :
  expand_level successors self level ≠ [] → List.filter (live self) level ≠ [].
Proof. unfold expand_level. intros H Hf. by rewrite Hf in H. Qed.

(** The counter at a loop test. *)
Lemma reachable_counter self input_string tr t :
  reachable successors self input_string tr t →
  t = Z.of_nat (live_count self (removelast tr)) ∧
  Z.of_nat (length tr) - 1 <= t.
Proof.
  induction 1 as [|tr t tr' t' Hr [IH1 IH2] Hg Hit]; [done|].
  apply guard_true in Hg as [Hne Hlt].
  apply iteration_continue in Hit as (nl & Hscan & Hnl & -> & Hd & Hany).
  destruct (last tr) as [level|] eqn:Hlast; [|by apply last_None in Hlast].
  simpl in Hscan.
  pose proof (scan_level_spec successors self level t [] ltac:(lia)) as Hs.
  rewrite Hscan in Hs. destruct Hs as (_ & Hexp & Ht' & _). simpl in Hexp.
  rewrite removelast_last.
  rewrite (last_snoc_removelast _ _ Hlast) at 1. rewrite live_count_snoc.
  assert (Hlive : List.filter (live self) level ≠ []).
  { apply expand_level_nonempty. by rewrite <- Hexp. }
  split; [lia|]. rewrite length_app. simpl.
  destruct (List.filter (live self) level); [done | simpl in *; lia].
Qed.

(** Every configuration of a tree the loop builds ends a computation from
    the initial configuration, of as many steps as its level says. *)
Lemma tree_ok_sound self input_string tr :
  tree_ok successors self input_string tr →
  ∀ (i : nat) level c,
    tr !! i = Some level → In c level →
    computes successors self i (initial_config self input_string) c.
Proof.
  intros [H0 Hsteps] i. induction i as [|i IH]; intros level c Hi Hc.
  - rewrite H0 in Hi. injection Hi as <-. destruct Hc as [<-|[]]. constructor.
  - destruct (lookup_lt_is_Some_2 tr i) as [prev Hprev].
    { apply lookup_lt_Some in Hi. lia. }
    destruct (Hsteps i prev level Hprev Hi) as (_ & -> & _).
    unfold expand_level in Hc. apply in_flat_map in Hc as (c0 & Hc0 & Hc).
    apply filter_In in Hc0 as [Hc0 Hlive]. econstructor; [by eapply IH | done | done].
Qed.

(** And every such computation ends in the level of its length, when the
    tree has that level. *)
Lemma tree_ok_complete self input_string tr :
  tree_ok successors self input_string tr →
  ∀ (n : nat) c,
    computes successors self n (initial_config self input_string) c →
    ∀ level, tr !! n = Some level → In c level.
Proof.
  intros [H0 Hsteps] n c Hcomp.
  remember (initial_config self input_string) as c0 eqn:Hc0.
  induction Hcomp as [c0|n c0 c' c'' Hcomp IH Hlive Hin]; intros level Hn.
  - subst. rewrite H0 in Hn. injection Hn as <-. by left.
  - destruct (lookup_lt_is_Some_2 tr n) as [prev Hprev].
    { apply lookup_lt_Some in Hn. lia. }
    destruct (Hsteps n prev level Hprev Hn) as (_ & -> & _).
    unfold expand_level. apply in_flat_map. exists c'. split; [|done].
    apply filter_In. split; [by apply IH | done].
Qed.

End Search.

Lemma successors_set_limits (f : SourceFile) self md mt c :
  successors_of f (set_limits self md mt) c = successors_of f self c.
Proof. by destruct f. Qed.

Lemma computes_set_limits (f : SourceFile) self md mt n c c' :
  computes (successors_of f) (set_limits self md mt) n c c' ↔
  computes (successors_of f) self n c c'.
Proof.
  split; induction 1 as [|n c c' c'' _ IH Hlive Hin]; try constructor.
  - econstructor; [exact IH | exact Hlive | by rewrite <- (successors_set_limits f self md mt)].
  - econstructor; [exact IH | exact Hlive | by rewrite successors_set_limits].
Qed.

(** X7.  The tree [run] leaves, in either file: level 0 is the initial
    configuration alone, no level is empty, and every further level is made
    of the successors of the configurations of the level before that neither
    accept nor are rejected, in their order; a level with a level after it
    holds no configuration in the accept state. *)
Theorem tree_levels (f : SourceFile) self input_string md mt r :
  run_of f self input_string md mt = Some r →
  tree r !! 0%nat = Some [initial_config self input_string] ∧
  Forall (λ level, level ≠ []) (tree r) ∧
  ∀ (i : nat) level level',
    tree r !! i = Some level → tree r !! S i = Some level' →
    Forall (λ c, state c ≠ accept_state self) level ∧
    level' = flat_map (successors_of f self) (List.filter (live self) level).
Proof.
  intros Hrun. apply run_tree_ok in Hrun as [[H0 Hsteps] _].
  split; [exact H0|]. split.
  - apply Forall_lookup. intros [|i] level Hi.
    + rewrite H0 in Hi. by injection Hi as <-.
    + destruct (lookup_lt_is_Some_2 (tree r) i) as [prev Hprev].
      { apply lookup_lt_Some in Hi. lia. }
      by destruct (Hsteps i prev level Hprev Hi) as (_ & _ & ?).
  - intros i level level' Hi HSi.
    destruct (Hsteps i level level' Hi HSi) as (Hacc & -> & _).
    split; [exact Hacc|]. unfold expand_level. apply flat_map_ext.
    intros c. apply successors_set_limits.
Qed.

Lemma tree_levels_witness :
  let r := mkResult (set_limits Examples.M_branch 2 1000) (StoppedDepth 2)
             [[mkConfig "" "q0" "a"];
              [mkConfig "a" "q1" "_"; mkConfig "a" "q2" "_"];
              [mkConfig "a" "qr" "_"; mkConfig "a_" "q2" "_"]] 3 in
  run_of TM_trace_nefario_py Examples.M_branch "a" 2 1000 = Some r ∧
  Forall (λ level, level ≠ []) (tree r).
Proof.
  intros r.
  assert (H : run_of TM_trace_nefario_py Examples.M_branch "a" 2 1000 = Some r)
    by (vm_compute; reflexivity).
  split; [exact H|].
  exact (proj1 (proj2 (tree_levels _ _ _ _ _ _ H))).
Defined.

(** X8.  In either file, every configuration at level [i] of the tree [run]
    leaves ends a computation of [i] steps from the initial configuration. *)
Theorem levels_are_sound (f : SourceFile) self input_string md mt r (i : nat) level c :
  run_of f self input_string md mt = Some r →
  tree r !! i = Some level →
  In c level →
  computes (successors_of f) self i (initial_config self input_string) c.
Proof.
  intros Hrun Hi Hc. apply run_tree_ok in Hrun as [Hok _].
  apply (computes_set_limits f self md mt).
  exact (tree_ok_sound _ _ _ _ Hok i level c Hi Hc).
Qed.

Lemma levels_are_sound_witness :
  let r := mkResult (set_limits Examples.M_accept 100 1000) (Accepted 1)
             [[mkConfig "" "q0" "a"]; [mkConfig "b" "qa" "_"]] 1 in
  run_of program_py Examples.M_accept "a" 100 1000 = Some r ∧
  computes ProgramPy.successors Examples.M_accept 1
    (mkConfig "" "q0" "a") (mkConfig "b" "qa" "_").
Proof.
  intros r.
  assert (H1 : run_of program_py Examples.M_accept "a" 100 1000 = Some r)
    by (vm_compute; reflexivity).
  assert (H2 : tree r !! 1%nat = Some [mkConfig "b" "qa" "_"]) by reflexivity.
  assert (H3 : In (mkConfig "b" "qa" "_") [mkConfig "b" "qa" "_"]) by (left; reflexivity).
  split; [exact H1|].
  exact (levels_are_sound program_py _ _ _ _ _ _ _ _ H1 H2 H3).
Defined.

(** X9.  In either file, the search misses nothing: a computation of [n]
    steps from the initial configuration ends in level [n] of the tree [run]
    leaves, when the tree has that level. *)
Theorem levels_are_complete (f : SourceFile) self input_string md mt r (n : nat) level c :
  run_of f self input_string md mt = Some r →
  computes (successors_of f) self n (initial_config self input_string) c →
  tree r !! n = Some level →
  In c level.
Proof.
  intros Hrun Hcomp Hn. apply run_tree_ok in Hrun as [Hok _].
  apply (computes_set_limits f self md mt) in Hcomp.
  exact (tree_ok_complete _ _ _ _ Hok n c Hcomp level Hn).
Qed.

Lemma levels_are_complete_witness :
  let r := mkResult (set_limits Examples.M_accept 100 1000) (Accepted 1)
             [[mkConfig "" "q0" "a"]; [mkConfig "b" "qa" "_"]] 1 in
  run_of program_py Examples.M_accept "a" 100 1000 = Some r ∧
  computes ProgramPy.successors Examples.M_accept 1
    (mkConfig "" "q0" "a") (mkConfig "b" "qa" "_") ∧
  In (mkConfig "b" "qa" "_") [mkConfig "b" "qa" "_"].
Proof.
  intros r.
  assert (H1 : run_of program_py Examples.M_accept "a" 100 1000 = Some r)
    by (vm_compute; reflexivity).
  assert (H2 : computes ProgramPy.successors Examples.M_accept 1
                 (mkConfig "" "q0" "a") (mkConfig "b" "qa" "_")).
  { apply (computes_S _ _ 0 _ (mkConfig "" "q0" "a"));
      [constructor | reflexivity | left; reflexivity]. }
  assert (H3 : tree r !! 1%nat = Some [mkConfig "b" "qa" "_"]) by reflexivity.
  split; [exact H1|]. split; [exact H2|].
  exact (levels_are_complete program_py _ _ _ _ _ _ _ _ H1 H2 H3).
Defined.

Lemma outcome_meaning_aux (f : SourceFile) self input_string md mt r :
  run_of f self input_string md mt = Some r →
  match outcome r with
  | Accepted d | Rejected d => d = Z.of_nat (length (tree r)) - 1
  | _ => True
  end.
Proof.
  intros Hrun. apply run_cases in Hrun as (tr & t & level & _ & _ & Hcase).
  destruct Hcase as [[_ ->]|[_ Hcase]]; [done|].
  destruct Hcase as [(t' & _ & ->)|[(t' & _ & ->)|(t' & nl & tr' & _ & -> & Hout)]];
    [done | done |].
  by destruct Hout as [[_ ->]|(_ & _ & ->)].
Qed.

(** ** What each outcome means *)



Lemma levels_are_complete_aux (f : SourceFile) self input_string md mt r (n : nat) level c :
  run_of f self input_string md mt = Some r →
  tree r !! n = Some level →
  computes (successors_of f) self n (initial_config self input_string) c →
  In c level.
Proof.
  intros Hrun Hn Hcomp. apply run_tree_ok in Hrun as [Hok _].
  apply (computes_set_limits f self md mt) in Hcomp.
  exact (tree_ok_complete _ _ _ _ Hok n c Hcomp level Hn).
Qed.

(** X11.  In either file, a reported acceptance is real and as early as can
    be: the last level of the tree holds a configuration in the accept state,
    and no computation of fewer steps than the reported depth ends in the
    accept state. *)
Theorem accepted_depth_is_minimal (f : SourceFile) self input_string md mt r d :
  run_of f self input_string md mt = Some r →
  outcome r = Accepted d →
  (∃ level c, last (tree r) = Some level ∧ In c level ∧
              state c = accept_state self ∧
              computes (successors_of f) self (Z.to_nat d)
                (initial_config self input_string) c) ∧
  ∀ (n : nat) c,
    Z.of_nat n < d →
    computes (successors_of f) self n (initial_config self input_string) c →
    state c ≠ accept_state self.
Proof.
  intros Hrun Hout.
  pose proof (outcome_meaning_aux f _ _ _ _ _ Hrun) as Hd. rewrite Hout in Hd.
  pose proof (run_tree_ok _ _ _ _ _ _ Hrun) as [Hok _].
  split.
  - apply run_cases in Hrun as (tr & t & level & Hreach & Hlast & Hcase).
    apply reachable_inv in Hreach as (_ & Ht & _). simpl in Ht.
    destruct Hcase as [[_ ->]|[Hlt Hcase]]; [discriminate|].
    pose proof (scan_level_spec (successors_of f) (set_limits self md mt)
                  level t [] ltac:(simpl; lia)) as Hs.
    destruct Hcase as [(t' & Hscan & ->)|[(t' & Hscan & ->)|(t' & nl & tr' & Hscan & -> & Ho)]];
      [|discriminate|by destruct Ho as [[_ ->]|(_ & _ & ->)]].
    rewrite Hscan in Hs. destruct Hs as [_ Hex].
    apply Exists_exists in Hex as (c & Hc & Hacc). apply list_elem_of_In in Hc.
    simpl in *. exists level, c. repeat split; try done.
    apply (computes_set_limits f self md mt).
    apply (tree_ok_sound _ _ _ _ Hok _ level c); [|done].
    rewrite last_lookup in Hlast.
    replace (Z.to_nat d) with (pred (length tr)) by lia. done.
  - intros n c Hn Hcomp.
    destruct (lookup_lt_is_Some_2 (tree r) n) as [level Hlevel]; [lia|].
    destruct (lookup_lt_is_Some_2 (tree r) (S n)) as [level' Hlevel']; [lia|].
    destruct Hok as [_ Hsteps].
    destruct (Hsteps n level level' Hlevel Hlevel') as (Hacc & _).
    pose proof (levels_are_complete_aux f self input_string md mt r n level c
                  Hrun Hlevel Hcomp) as Hin.
    rewrite Forall_forall in Hacc. by apply Hacc, list_elem_of_In.
Qed.

Lemma accepted_depth_is_minimal_witness :
  let r := mkResult (set_limits Examples.M_accept 100 1000) (Accepted 1)
             [[mkConfig "" "q0" "a"]; [mkConfig "b" "qa" "_"]] 1 in
  run_of program_py Examples.M_accept "a" 100 1000 = Some r ∧
  outcome r = Accepted 1 ∧
  ∀ (n : nat) c,
    Z.of_nat n < 1 →
    computes ProgramPy.successors Examples.M_accept n (mkConfig "" "q0" "a") c →
    state c ≠ "qa".
Proof.
  intros r.
  assert (H1 : run_of program_py Examples.M_accept "a" 100 1000 = Some r)
    by (vm_compute; reflexivity).
  assert (H2 : outcome r = Accepted 1) by reflexivity.
  split; [exact H1|]. split; [exact H2|].
  exact (proj2 (accepted_depth_is_minimal program_py _ _ _ _ _ _ H1 H2)).
Defined.

Lemma flat_map_nil {A B} (g : A → list B) (l : list A) (x : A) :
  flat_map g l = [] → In x l → g x = [].
Proof.
  induction l as [|y l IH]; simpl; [done|].
  intros [Hy Hl]%app_eq_nil [<-|Hx]; [done | by apply IH].
Qed.

Lemma trace_successors_nonempty self c : TraceNefario.successors self c ≠ [].
Proof.
  unfold TraceNefario.successors.
  destruct (possible_transitions self c); simpl; discriminate.
Qed.

(** X12.  In either file, a rejection is reported only over a dead last
    level: each of its configurations is in the reject state, or is one for
    which the file appends nothing.  [TM_trace_nefario.py] always appends
    something, so there the whole last level is in the reject state. *)
Theorem rejected_means_dead_level (f : SourceFile) self input_string md mt r d :
  run_of f self input_string md mt = Some r →
  outcome r = Rejected d →
  ∃ level,
    last (tree r) = Some level ∧
    Forall (λ c, state c = reject_state self ∨
                 (live self c = true ∧ successors_of f self c = [])) level ∧
    (f = TM_trace_nefario_py → Forall (λ c, state c = reject_state self) level).
Proof.
  intros Hrun Hout.
  assert (Hgen : ∃ level, last (tree r) = Some level ∧
            Forall (λ c, state c = reject_state self ∨
                         (live self c = true ∧ successors_of f self c = [])) level).
  { apply run_cases in Hrun as (tr & t & level & Hreach & Hlast & Hcase).
    apply reachable_inv in Hreach as (_ & Ht & _). simpl in Ht.
    destruct Hcase as [[_ ->]|[Hlt Hcase]]; [discriminate|].
    pose proof (scan_level_spec (successors_of f) (set_limits self md mt)
                  level t [] ltac:(simpl; lia)) as Hs.
    destruct Hcase as [(t' & Hscan & ->)|[(t' & Hscan & ->)|(t' & nl & tr' & Hscan & -> & Ho)]];
      [discriminate | discriminate |].
    rewrite Hscan in Hs. destruct Hs as (Hacc & Hexp & _). simpl in Hexp.
    destruct Ho as [[_ ->]|(_ & Hany & ->)]; [discriminate|]. simpl.
    apply any_not_rejected_false in Hany. simpl in Hany.
    destruct nl as [|c0 nl]; simpl.
    - exists level. split; [done|]. apply Forall_forall. intros c Hc.
      destruct (decide (state c = reject_state self)) as [Hr|Hr]; [by left|].
      right. rewrite Forall_forall in Hacc. specialize (Hacc c Hc). simpl in Hacc.
      assert (Hlive : live self c = true) by by apply live_other.
      split; [done|]. rewrite <- (successors_set_limits f self md mt).
      apply (flat_map_nil _ (List.filter (live (set_limits self md mt)) level)).
      + by symmetry.
      + apply filter_In. split; [by apply list_elem_of_In | done].
    - exists (c0 :: nl). split; [by rewrite last_snoc|].
      eapply Forall_impl; [exact Hany|]. intros c Hc. by left. }
  destruct Hgen as (level & Hlast & Hall). exists level. split; [done|]. split; [done|].
  intros ->. eapply Forall_impl; [exact Hall|]. simpl.
  intros c [Hc|[_ Hc]]; [done|]. by destruct (trace_successors_nonempty self c).
Qed.

Lemma rejected_means_dead_level_witness :
  let r := mkResult (set_limits Examples.M_none 100 1000) (Rejected 0)
             [[mkConfig "" "q0" "a"]] 1 in
  run_of program_py Examples.M_none "a" 100 1000 = Some r ∧
  outcome r = Rejected 0 ∧
  ∃ level,
    last (tree r) = Some level ∧
    Forall (λ c, state c = "qr" ∨
                 (live Examples.M_none c = true ∧
                  ProgramPy.successors Examples.M_none c = [])) level.
Proof.
  intros r.
  assert (H1 : run_of program_py Examples.M_none "a" 100 1000 = Some r)
    by (vm_compute; reflexivity).
  assert (H2 : outcome r = Rejected 0) by reflexivity.
  split; [exact H1|]. split; [exact H2|].
  destruct (rejected_means_dead_level program_py _ _ _ _ _ _ H1 H2)
    as (level & Hlast & Hall & _).
  exists level. split; [exact Hlast | exact Hall].
Defined.

(** X13.  In either file, at every test of the [while] loop the counter is
    the number of configurations, in all levels but the last, that neither
    accept nor are rejected; and it is at least the number of levels after
    the first: every level costs at least one expansion. *)
Theorem counter_counts_expansions (f : SourceFile) self input_string md mt tr t :
  reachable (successors_of f) (set_limits self md mt) input_string tr t →
  t = Z.of_nat (live_count self (removelast tr)) ∧
  Z.of_nat (length tr) - 1 <= t.
Proof. intros H. exact (reachable_counter _ _ _ _ _ H). Qed.

Lemma counter_counts_expansions_witness :
  let self := set_limits Examples.M_branch 100 1000 in
  let tr := [[mkConfig "" "q0" "a"];
             [mkConfig "a" "q1" "_"; mkConfig "a" "q2" "_"]] in
  reachable ProgramPy.successors self "a" tr 1 ∧
  1 = Z.of_nat (live_count Examples.M_branch (removelast tr)) ∧
  Z.of_nat (length tr) - 1 <= 1.
Proof.
  intros self tr.
  assert (H : reachable ProgramPy.successors self "a" tr 1).
  { apply (reachable_next _ _ _ [[initial_config self "a"]] 0);
      [constructor | reflexivity | reflexivity]. }
  split; [exact H|].
  exact (counter_counts_expansions program_py Examples.M_branch "a" 100 1000 tr 1 H).
Defined.

(** ** A start state without a move *)

Lemma scan_single (successors : Machine → Config → list Config) self c :
  state c ≠ accept_state self → state c ≠ reject_state self →
  1 <= max_transitions self →
  scan_level successors self [c] 0 [] = ScanDone 1 (successors self c).
Proof.
  intros Ha Hr Hmt. simpl.
  rewrite (bool_decide_eq_false_2 _ Ha), (bool_decide_eq_false_2 _ Hr).
  change (0 + 1) with 1.
  destruct (Z.gtb_spec 1 (max_transitions self)); [lia | done].
Qed.

(** X14.  In [program.py], when the start state neither accepts nor is
    rejected and has no entry for the first symbol of the input, a run with
    a budget and a depth limit of at least one reports a rejection at depth
    0: the tree stays the initial level, and the counter is one. *)
Theorem program_py_start_without_move self input_string md mt :
  start_state self ≠ accept_state self →
  start_state self ≠ reject_state self →
  possible_transitions self (initial_config self input_string) = [] →
  1 <= mt → 1 <= md →
  ProgramPy.run self input_string md mt =
  Some (mkResult (set_limits self md mt) (Rejected 0)
          [[initial_config self input_string]] 1).
Proof.
  intros Ha Hr Hnone Hmt Hmd.
  apply (exits_run _ _ _ _ _ [[initial_config self input_string]] 0);
    [exact (reachable_start _ (set_limits self md mt) input_string)|].
  right. split; [apply guard_true; simpl; split; [done | lia]|].
  unfold iteration. simpl last. simpl default.
  rewrite scan_single by (simpl; done || lia).
  unfold ProgramPy.successors.
  change (possible_transitions (set_limits self md mt) ?c)
    with (possible_transitions self c).
  rewrite Hnone. simpl. change (Z.of_nat 1) with 1.
  destruct (Z.gtb_spec 1 md); [lia | done].
Qed.

Lemma program_py_start_without_move_witness :
  start_state Examples.M_none ≠ accept_state Examples.M_none ∧
  start_state Examples.M_none ≠ reject_state Examples.M_none ∧
  possible_transitions Examples.M_none (initial_config Examples.M_none "a") = [] ∧
  1 <= 5 ∧ 1 <= 3 ∧
  ProgramPy.run Examples.M_none "a" 3 5 =
  Some (mkResult (set_limits Examples.M_none 3 5) (Rejected 0)
          [[mkConfig "" "q0" "a"]] 1).
Proof.
  assert (H1 : start_state Examples.M_none ≠ accept_state Examples.M_none) by done.
  assert (H2 : start_state Examples.M_none ≠ reject_state Examples.M_none) by done.
  assert (H3 : possible_transitions Examples.M_none
                 (initial_config Examples.M_none "a") = []) by reflexivity.
  assert (H4 : 1 <= 5) by lia.
  assert (H5 : 1 <= 3) by lia.
  repeat (split; [assumption|]).
  exact (program_py_start_without_move Examples.M_none "a" 3 5 H1 H2 H3 H4 H5).
Defined.

(** X15.  In [TM_trace_nefario.py], under the same conditions and a depth
    limit of at least two, the rejection is reported at depth 1: the tree
    gains the level with the initial tapes in the reject state. *)
Theorem trace_start_without_move self input_string md mt :
  start_state self ≠ accept_state self →
  start_state self ≠ reject_state self →
  possible_transitions self (initial_config self input_string) = [] →
  1 <= mt → 2 <= md →
  TraceNefario.run self input_string md mt =
  Some (mkResult (set_limits self md mt) (Rejected 1)
          [[initial_config self input_string];
           [mkConfig "" (reject_state self) input_string]] 1).
Proof.
  intros Ha Hr Hnone Hmt Hmd.
  apply (exits_run _ _ _ _ _ [[initial_config self input_string]] 0);
    [exact (reachable_start _ (set_limits self md mt) input_string)|].
  right. split; [apply guard_true; simpl; split; [done | lia]|].
  unfold iteration. simpl last. simpl default.
  rewrite scan_single by (simpl; done || lia).
  unfold TraceNefario.successors.
  change (possible_transitions (set_limits self md mt) ?c)
    with (possible_transitions self c).
  rewrite Hnone. simpl. change (Z.of_nat 2) with 2.
  destruct (Z.gtb_spec 2 md); [lia|].
  by rewrite bool_decide_eq_true_2.
Qed.

Lemma trace_start_without_move_witness :
  start_state Examples.M_none ≠ accept_state Examples.M_none ∧
  start_state Examples.M_none ≠ reject_state Examples.M_none ∧
  possible_transitions Examples.M_none (initial_config Examples.M_none "a") = [] ∧
  1 <= 5 ∧ 2 <= 3 ∧
  TraceNefario.run Examples.M_none "a" 3 5 =
  Some (mkResult (set_limits Examples.M_none 3 5) (Rejected 1)
          [[mkConfig "" "q0" "a"]; [mkConfig "" "qr" "a"]] 1).
Proof.
  assert (H1 : start_state Examples.M_none ≠ accept_state Examples.M_none) by done.
  assert (H2 : start_state Examples.M_none ≠ reject_state Examples.M_none) by done.
  assert (H3 : possible_transitions Examples.M_none
                 (initial_config Examples.M_none "a") = []) by reflexivity.
  assert (H4 : 1 <= 5) by lia.
  assert (H5 : 2 <= 3) by lia.
  repeat (split; [assumption|]).
  exact (trace_start_without_move Examples.M_none "a" 3 5 H1 H2 H3 H4 H5).
Defined.

(** ** The printed path *)

Lemma tagged_from (pre tr : list (list Config)) :
  flat_map (λ level, map (pair level) (default [] ((pre ++ tr) !! level)))
    (seq (length pre) (length tr)) =
  concat (imap (λ level configs, map (pair (length pre + level)%nat) configs) tr).
Proof.
  revert pre. induction tr as [|x tr IH]; intros pre; [done|].
  simpl seq. simpl flat_map. rewrite list_lookup_middle by done. simpl.
  rewrite Nat.add_0_r. f_equal.
  replace (pre ++ x :: tr) with ((pre ++ [x]) ++ tr) by by rewrite <- app_assoc.
  specialize (IH (pre ++ [x])). rewrite length_app in IH. simpl in IH.
  rewrite Nat.add_1_r in IH. rewrite IH. f_equal.
  apply imap_ext. intros i l _. simpl. f_equal. f_equal. lia.
Qed.

Lemma print_whole_tree (tr : list (list Config)) :
  print_accept_path tr (Z.of_nat (length tr) - 1) = tagged_levels tr.
Proof.
  unfold print_accept_path, tagged_levels.
  replace (Z.to_nat (Z.of_nat (length tr) - 1 + 1)) with (length tr) by lia.
  exact (tagged_from [] tr).
Qed.

(** X16.  In either file, what is printed on acceptance is the whole tree:
    every configuration of every level up to the accepting one, in order,
    each with the index of its level; not only the accepting path. *)
Theorem accepted_prints_the_tree (f : SourceFile) self input_string md mt r d :
  run_of f self input_string md mt = Some r →
  outcome r = Accepted d →
  print_accept_path (tree r) d = tagged_levels (tree r) ∧
  length (print_accept_path (tree r) d) = list_sum (map length (tree r)).
Proof.
  intros Hrun Hout.
  pose proof (outcome_meaning_aux f _ _ _ _ _ Hrun) as Hmean. rewrite Hout in Hmean.
  rewrite Hmean, print_whole_tree. split; [done|].
  unfold tagged_levels. generalize (tree r). intros tr.
  assert (H : ∀ g : nat → nat,
    length (concat (imap (λ level configs, map (pair (g level)) configs) tr))
    = list_sum (map length tr)).
  { induction tr as [|x tr IH]; intros g; [done|].
    simpl. rewrite length_app, length_map. f_equal. exact (IH (g ∘ S)). }
  exact (H id).
Qed.

Lemma accepted_prints_the_tree_witness :
  let r := mkResult (set_limits Examples.M_accept 100 1000) (Accepted 1)
             [[mkConfig "" "q0" "a"]; [mkConfig "b" "qa" "_"]] 1 in
  run_of TM_trace_nefario_py Examples.M_accept "a" 100 1000 = Some r ∧
  outcome r = Accepted 1 ∧
  print_accept_path (tree r) 1 =
  [(0%nat, mkConfig "" "q0" "a"); (1%nat, mkConfig "b" "qa" "_")].
Proof.
  intros r.
  assert (H1 : run_of TM_trace_nefario_py Examples.M_accept "a" 100 1000 = Some r)
    by (vm_compute; reflexivity).
  assert (H2 : outcome r = Accepted 1) by reflexivity.
  split; [exact H1|]. split; [exact H2|].
  exact (proj1 (accepted_prints_the_tree TM_trace_nefario_py _ _ _ _ _ _ H1 H2)).
Defined.

(** ** The two files on any machine *)

Lemma thinner_refl self l : thinner self l l.
Proof. induction l; by constructor. Qed.

Lemma thinner_app self P T P' T' :
  thinner self P T → thinner self P' T' → thinner self (P ++ P') (T ++ T').
Proof.
  intros H1 H2. induction H1 as [|c P T _ IH|c P T Hc _ IH]; simpl;
    [done | by apply thinner_keep | by apply thinner_skip].
Qed.

Lemma thinner_successors self c :
  thinner self (ProgramPy.successors self c) (TraceNefario.successors self c).
Proof.
  unfold ProgramPy.successors, TraceNefario.successors.
  destruct (possible_transitions self c); simpl; [|apply thinner_refl].
  apply thinner_skip; [done | constructor].
Qed.

Lemma thinner_nil_l self T :
  thinner self [] T → Forall (λ c, state c = reject_state self) T.
Proof.
  remember [] as P eqn:HP. induction 1; [constructor | discriminate |].
  constructor; [done | by apply IHthinner].
Qed.

Lemma thinner_truthy self P T : thinner self P T → truthy P = true → truthy T = true.
Proof. by destruct 1. Qed.

Lemma thinner_any_not_rejected self P T :
  thinner self P T → any_not_rejected self P = any_not_rejected self T.
Proof.
  induction 1 as [|c P T _ IH|c P T Hc _ IH]; simpl; [done | by rewrite IH |].
  by rewrite IH, (bool_decide_eq_true_2 _ Hc).
Qed.

(** One scan in the two files, over levels side by side. *)
Lemma scan_beside self P T t accP accT :
  accept_state self ≠ reject_state self →
  thinner self P T → thinner self accP accT →
  match scan_level ProgramPy.successors self P t accP,
        scan_level TraceNefario.successors self T t accT with
  | ScanAccept t1, ScanAccept t2 => t1 = t2
  | ScanBudget t1, ScanBudget t2 => t1 = t2
  | ScanDone t1 nlP, ScanDone t2 nlT => t1 = t2 ∧ thinner self nlP nlT
  | _, _ => False
  end.
Proof.
  intros Hne HPT. revert t accP accT.
  induction HPT as [|c P T _ IH|c P T Hc _ IH]; intros t accP accT Hacc; simpl.
  - done.
  - destruct (bool_decide (state c = accept_state self)); [done|].
    destruct (bool_decide (state c = reject_state self)); [by apply IH|].
    destruct (t + 1 >? max_transitions self); [done|].
    apply IH. apply thinner_app; [done | apply thinner_successors].
  - rewrite bool_decide_eq_false_2 by congruence.
    rewrite (bool_decide_eq_true_2 _ Hc). by apply IH.
Qed.

Lemma Forall2_thinner_last self trP trT :
  Forall2 (thinner self) trP trT →
  thinner self (default [] (last trP)) (default [] (last trT)).
Proof.
  induction 1 as [|P T trP trT HPT Hrest IH]; [constructor|].
  destruct Hrest as [|P' T' trP trT]; [done | exact IH].
Qed.

(** One pass in the two files, over trees side by side. *)
Lemma iteration_beside self trP trT t :
  accept_state self ≠ reject_state self →
  Forall2 (thinner self) trP trT →
  match iteration ProgramPy.successors self trP t,
        iteration TraceNefario.successors self trT t with
  | Halt rP, Halt rT =>
      counter rP = counter rT ∧
      outcome_beside (max_depth self) (outcome rP) (outcome rT)
  | Continue trP' tP, Continue trT' tT =>
      tP = tT ∧ Forall2 (thinner self) trP' trT'
  | _, _ => False
  end.
Proof.
  intros Hne Htr. pose proof (Forall2_length _ _ _ Htr) as Hlen.
  pose proof (scan_beside self _ _ t [] [] Hne (Forall2_thinner_last _ _ _ Htr)
                (thinner_nil self)) as Hscan.
  unfold iteration.
  destruct (scan_level ProgramPy.successors _ _ _ _) as [t1|t1|t1 nlP];
    destruct (scan_level TraceNefario.successors _ _ _ _) as [t2|t2|t2 nlT];
    try done.
  - subst. simpl. by rewrite Hlen.
  - destruct Hscan as [<- Hnl].
    rewrite <- (thinner_any_not_rejected _ _ _ Hnl).
    destruct nlP as [|cP nlP].
    + apply thinner_nil_l in Hnl as Hrej.
      apply any_not_rejected_false in Hrej.
      rewrite (thinner_any_not_rejected _ _ _ Hnl), Hrej. simpl truthy at 1.
      simpl negb. cbv iota.
      assert (HlenT : Z.of_nat (length trP) <=
                      Z.of_nat (length (if truthy nlT then trT ++ [nlT] else trT)) <=
                      Z.of_nat (length trP) + 1).
      { destruct (truthy nlT); [rewrite length_app; simpl|]; lia. }
      destruct (Z.gtb_spec (Z.of_nat (length trP)) (max_depth self)) as [Hd|Hd];
        destruct (Z.gtb_spec (Z.of_nat (length (if truthy nlT then trT ++ [nlT] else trT)))
                    (max_depth self)) as [Hd'|Hd']; simpl; try lia.
      * done.
      * split; [done|]. by right; right.
      * split; [done|]. destruct nlT as [|cT nlT]; simpl.
        -- left. by rewrite Hlen.
        -- right. left. f_equal. rewrite length_app. simpl. lia.
    + pose proof (thinner_truthy _ _ _ Hnl eq_refl) as HT. rewrite HT.
      simpl truthy. cbv iota.
      rewrite !length_app, Hlen. simpl length.
      destruct (_ >? _); [done|].
      destruct (any_not_rejected self (cP :: nlP)); simpl; [|split; [done | by left]].
      split; [done|]. apply Forall2_app; [done | by constructor].
Qed.

Lemma loop_beside self fuel trP trT t rP :
  accept_state self ≠ reject_state self →
  Forall2 (thinner self) trP trT →
  loop ProgramPy.successors fuel self trP t = Some rP →
  ∃ rT, loop TraceNefario.successors fuel self trT t = Some rT ∧
        counter rP = counter rT ∧
        outcome_beside (max_depth self) (outcome rP) (outcome rT).
Proof.
  intros Hne. revert trP trT t.
  induction fuel as [|fuel IH]; intros trP trT t Htr; simpl.
  - assert (Hg : guard self trT t = guard self trP t).
    { unfold guard. by destruct Htr. }
    rewrite Hg. destruct (guard self trP t); [done|].
    intros [= <-]. eexists. split; [done|]. by split.
  - assert (Hg : guard self trT t = guard self trP t).
    { unfold guard. by destruct Htr. }
    rewrite Hg. destruct (guard self trP t).
    + pose proof (iteration_beside self trP trT t Hne Htr) as Hit.
      destruct (iteration ProgramPy.successors self trP t) as [rP'|trP' tP];
        destruct (iteration TraceNefario.successors self trT t) as [rT'|trT' tT];
        try done.
      * intros [= <-]. by exists rT'.
      * destruct Hit as [<- Htr']. by apply IH.
    + intros [= <-]. eexists. split; [done|]. by split.
Qed.

(** X17.  On any machine whose accept and reject states differ, the two files
    count the same expansions and print the same message, with the same
    depth or limit, but for a rejection: where [program.py] reports one at
    depth [d], [TM_trace_nefario.py] reports it at depth [d] or [d + 1], or
    stops on the depth limit.  In particular the two files accept the same
    inputs at the same depths. *)
Theorem files_side_by_side self input_string md mt rP :
  accept_state self ≠ reject_state self →
  ProgramPy.run self input_string md mt = Some rP →
  ∃ rT, TraceNefario.run self input_string md mt = Some rT ∧
        counter rP = counter rT ∧
        outcome_beside md (outcome rP) (outcome rT).
Proof.
  intros Hne Hrun.
  assert (Htr : Forall2 (thinner (set_limits self md mt))
                  [[initial_config (set_limits self md mt) input_string]]
                  [[initial_config (set_limits self md mt) input_string]]).
  { constructor; [apply thinner_refl | constructor]. }
  exact (loop_beside (set_limits self md mt) _ _ _ 0 rP Hne Htr Hrun).
Qed.

Lemma files_side_by_side_witness :
  accept_state Examples.M_none ≠ reject_state Examples.M_none ∧
  ProgramPy.run Examples.M_none "a" 100 1000 =
    Some (mkResult (set_limits Examples.M_none 100 1000) (Rejected 0)
            [[mkConfig "" "q0" "a"]] 1) ∧
  ∃ rT, TraceNefario.run Examples.M_none "a" 100 1000 = Some rT ∧
        1 = counter rT ∧
        (outcome rT = Rejected 0 ∨ outcome rT = Rejected (0 + 1) ∨
         outcome rT = StoppedDepth 100).
Proof.
  assert (H1 : accept_state Examples.M_none ≠ reject_state Examples.M_none) by done.
  assert (H2 : ProgramPy.run Examples.M_none "a" 100 1000 =
               Some (mkResult (set_limits Examples.M_none 100 1000) (Rejected 0)
                       [[mkConfig "" "q0" "a"]] 1)) by (vm_compute; reflexivity).
  split; [exact H1|]. split; [exact H2|].
  exact (files_side_by_side Examples.M_none "a" 100 1000 _ H1 H2).
Defined.

(** ** Raising the limits *)

(** A scan that does not end on the budget ends the same way under a larger
    budget. *)
Lemma scan_more_budget (f : SourceFile) self md mt md' mt' level t acc :
  mt <= mt' →
  match scan_level (successors_of f) (set_limits self md mt) level t acc with
  | ScanBudget _ => True
  | s => scan_level (successors_of f) (set_limits self md' mt') level t acc = s
  end.
Proof.
  intros Hmt. revert t acc. induction level as [|c rest IH]; intros t acc; simpl; [done|].
  destruct (bool_decide (state c = accept_state self)); [done|].
  destruct (bool_decide (state c = reject_state self)); [apply IH|].
  destruct (Z.gtb_spec (t + 1) mt) as [Hb|Hb]; [done|].
  destruct (Z.gtb_spec (t + 1) mt') as [Hb'|Hb']; [lia|].
  rewrite !successors_set_limits. apply IH.
Qed.

Lemma iteration_more_limits (f : SourceFile) self md mt md' mt' tr t :
  md <= md' → mt <= mt' →
  match iteration (successors_of f) (set_limits self md mt) tr t with
  | Continue tr' t' =>
      iteration (successors_of f) (set_limits self md' mt') tr t = Continue tr' t'
  | Halt r =>
      match outcome r with
      | Accepted _ | Rejected _ =>
          iteration (successors_of f) (set_limits self md' mt') tr t =
          Halt (mkResult (set_limits self md' mt') (outcome r) (tree r) (counter r))
      | _ => True
      end
  end.
Proof.
  intros Hmd Hmt. unfold iteration.
  pose proof (scan_more_budget f self md mt md' mt' (default [] (last tr)) t [] Hmt)
    as Hscan.
  destruct (scan_level (successors_of f) (set_limits self md mt) _ _ _)
    as [t1|t1|t1 nl]; [by rewrite Hscan | done |].
  rewrite Hscan. simpl.
  destruct (Z.gtb_spec (Z.of_nat (length (if truthy nl then tr ++ [nl] else tr))) md)
    as [Hd|Hd]; [done|].
  destruct (Z.gtb_spec (Z.of_nat (length (if truthy nl then tr ++ [nl] else tr))) md')
    as [Hd'|Hd']; [lia|].
  change (any_not_rejected (set_limits self md' mt') nl)
    with (any_not_rejected (set_limits self md mt) nl).
  by destruct (any_not_rejected (set_limits self md mt) nl).
Qed.

Lemma reachable_more_limits (f : SourceFile) self input_string md mt md' mt' tr t :
  md <= md' → mt <= mt' →
  reachable (successors_of f) (set_limits self md mt) input_string tr t →
  reachable (successors_of f) (set_limits self md' mt') input_string tr t.
Proof.
  intros Hmd Hmt. induction 1 as [|tr t tr' t' _ IH Hg Hit].
  - exact (reachable_start _ (set_limits self md' mt') input_string).
  - apply (reachable_next _ _ _ tr t); [done | |].
    + apply guard_true in Hg as [? ?]. apply guard_true. simpl in *. split; [done | lia].
    + pose proof (iteration_more_limits f self md mt md' mt' tr t Hmd Hmt) as H.
      by rewrite Hit in H.
Qed.

(** X18.  Raising the limits never changes a verdict: in either file, a run
    that accepts or rejects at some depth ends with the same message, the
    same tree and the same counter under any larger depth limit and larger
    budget. *)
Theorem verdict_survives_larger_limits (f : SourceFile) self input_string
    md mt md' mt' r :
  md <= md' → mt <= mt' →
  run_of f self input_string md mt = Some r →
  (∃ d, outcome r = Accepted d ∨ outcome r = Rejected d) →
  run_of f self input_string md' mt' =
  Some (mkResult (set_limits self md' mt') (outcome r) (tree r) (counter r)).
Proof.
  intros Hmd Hmt Hrun [d Hout].
  apply run_exits in Hrun as (tr & t & Hreach & Hex).
  apply (reachable_more_limits f self input_string md mt md' mt' tr t Hmd Hmt) in Hreach.
  apply (exits_run _ _ _ _ _ tr t); [exact Hreach|].
  destruct Hex as [[_ ->]|[Hg Hit]]; [by destruct Hout|].
  right. split.
  - apply guard_true in Hg as [? ?]. apply guard_true. simpl in *. split; [done | lia].
  - pose proof (iteration_more_limits f self md mt md' mt' tr t Hmd Hmt) as H.
    rewrite Hit in H.
    destruct Hout as [Hout|Hout]; destruct (outcome r); try discriminate; exact H.
Qed.

Lemma verdict_survives_larger_limits_witness :
  let r := mkResult (set_limits Examples.M_accept 2 2) (Accepted 1)
             [[mkConfig "" "q0" "a"]; [mkConfig "b" "qa" "_"]] 1 in
  2 <= 100 ∧ 2 <= 1000 ∧
  run_of program_py Examples.M_accept "a" 2 2 = Some r ∧
  run_of program_py Examples.M_accept "a" 100 1000 =
  Some (mkResult (set_limits Examples.M_accept 100 1000) (Accepted 1)
          [[mkConfig "" "q0" "a"]; [mkConfig "b" "qa" "_"]] 1).
Proof.
  intros r.
  assert (H1 : 2 <= 100) by lia.
  assert (H2 : 2 <= 1000) by lia.
  assert (H3 : run_of program_py Examples.M_accept "a" 2 2 = Some r)
    by (vm_compute; reflexivity).
  assert (H4 : ∃ d, outcome r = Accepted d ∨ outcome r = Rejected d)
    by (exists 1; left; reflexivity).
  split; [exact H1|]. split; [exact H2|]. split; [exact H3|].
  exact (verdict_survives_larger_limits program_py Examples.M_accept "a"
           2 2 100 1000 r H1 H2 H3 H4).
Defined.
